(** * sisl: the asynchronous gRPC server registry and the free-list allocator

    A shallow embedding of

    - [include/grpc_helper/rpc_server.hpp] : the [GrpcServer] class, its
      service map, RPC registry and completion queues;
    - [src/fds/freelist_allocator.hpp] : [FreeListAllocatorImpl], the
      thread-local free list of fixed-size blocks.

    Member functions become functions over an explicit object state.  What
    a member function does besides changing the object (taking the registry
    lock, logging, posting a call to a completion queue) is recorded, in
    program order, in a trace of effects. *)

From stdpp Require Import gmap strings list fin_maps.
From Stdlib Require Import ZArith Lia.

(** ** namespace grpc_helper *)

Module grpc_helper.

(** [ENUM(ServerState, uint8_t, VOID, INITED, RUNNING, SHUTTING_DOWN, TERMINATED)] *)
Inductive ServerState : Type :=
  | VOID | INITED | RUNNING | SHUTTING_DOWN | TERMINATED.

#[global] Instance ServerState_eq_dec : EqDecision ServerState.
Proof. solve_decision. Defined.

(** The [uint8_t] value the enumeration gives each state. *)
Definition ServerState_value (st : ServerState) : Z :=
  match st with
  | VOID => 0 | INITED => 1 | RUNNING => 2 | SHUTTING_DOWN => 3 | TERMINATED => 4
  end%Z.

(** A [const char*] is an address. *)
Definition const_char_ptr : Type := Z.

(** A service type [ServiceT], as far as the server looks at it: the
    static member [service_full_name()] returns a [const char*]; the
    characters stored at that address are kept next to it. *)
Record ServiceT : Type := {
  service_full_name : const_char_ptr;
  service_name_chars : string
}.

(** The object made by [new typename ServiceT::AsyncService()]. *)
Record AsyncService : Type := { svc_type : ServiceT }.

(** [std::function] callbacks are opaque to the server; [None] is the empty
    function ([nullptr]). *)
Definition callback : Type := option nat.

(** Request and response message types are template arguments. *)
Definition type_tag : Type := string.

(** Modelled from the spec: [RpcStaticInfo] is declared in [rpc_call.hpp].
    The record holds the constructor arguments [register_rpc] passes (the
    service object, the three callbacks, the index, the method name) and the
    template arguments (request type, response type, streaming flag): the
    "owning service, method name, the three user callbacks, a streaming
    flag, and a stable index into the registry". *)
Record RpcStaticInfo : Type := {
  m_svc : AsyncService;
  m_req_call_cb : callback;
  m_handler_cb : callback;
  m_comp_cb : callback;
  m_rpc_idx : nat;
  m_rpc_name : string;
  info_req_t : type_tag;
  info_resp_t : type_tag;
  info_streaming : bool
}.

(** Modelled from the spec: the states of a Call Lifecycle Object ([RpcData],
    declared in [rpc_call.hpp]). *)
Inductive CallState : Type :=
  | AWAITING_CALL | PROCESSING | AWAITING_COMPLETION | DONE.

#[global] Instance CallState_eq_dec : EqDecision CallState.
Proof. solve_decision. Defined.

(** Modelled from the spec: a Call Lifecycle Object ([RpcData], declared in
    [rpc_call.hpp]) "owns a reference to its RpcStaticInfo, a queue index";
    the reference is the position of the record in the registry.  The
    streaming flag is the template argument of the instance. *)
Record RpcData : Type := {
  m_rpc_info : nat;
  m_queue_idx : nat;
  data_streaming : bool;
  call_state : CallState
}.

#[global] Instance RpcData_eq_dec : EqDecision RpcData.
Proof. solve_decision. Defined.

(** A [::grpc::ServerCompletionQueue], as the server sees it: the call
    objects posted to it, oldest first. *)
Abbreviation ServerCompletionQueue := (list RpcData).

(** The data members of [GrpcServer].  [m_builder] keeps the services given
    to [RegisterService]; [m_threads] the worker threads by number. *)
Record GrpcServer : Type := {
  m_state : ServerState;
  m_num_threads : Z;
  m_builder : list AsyncService;
  m_threads : list nat;
  m_cqs : list ServerCompletionQueue;
  m_services : gmap Z AsyncService;
  m_rpc_registry : list RpcStaticInfo
}.

(** What a member function does besides changing the object, in program
    order. *)
Inductive Effect : Type :=
  | DebugAssertFailed (msg : string)
  | LogAssertFailed (msg : string)
  | RegistryLocked
  | RegistryUnlocked
  | RegistryAppended (rpc_idx : nat)
  | CallEnqueued (rpc_idx : nat) (queue_idx : nat).

#[global] Instance Effect_eq_dec : EqDecision Effect.
Proof. solve_decision. Defined.

(** *** State and trace monad of the member functions *)

Definition Srv (A : Type) : Type := GrpcServer → A * GrpcServer * list Effect.

Definition ret {A : Type} (a : A) : Srv A := λ srv, (a, srv, []).

Definition bind {A B : Type} (m : Srv A) (k : A → Srv B) : Srv B :=
  λ srv,
    let '(a, srv1, t1) := m srv in
    let '(b, srv2, t2) := k a srv1 in
    (b, srv2, t1 ++ t2).

Definition get : Srv GrpcServer := λ srv, (srv, srv, []).
Definition put (srv' : GrpcServer) : Srv unit := λ _, (tt, srv', []).
Definition emit (e : Effect) : Srv unit := λ srv, (tt, srv, [e]).

Notation "'let*' x ':=' m 'in' k" := (bind m (λ x, k))
  (at level 10, x name, m at level 100, k at level 200, only parsing).
Notation "m ';;' k" := (bind m (λ _, k))
  (at level 100, k at level 200, right associativity, only parsing).

(** The three projections of a run. *)
Definition result {A : Type} (r : A * GrpcServer * list Effect) : A := r.1.1.
Definition server_after {A : Type} (r : A * GrpcServer * list Effect) : GrpcServer := r.1.2.
Definition trace {A : Type} (r : A * GrpcServer * list Effect) : list Effect := r.2.

(** Modelled from the spec: [DEBUG_ASSERT_EQ] is a macro of the logging
    library.  It is a "debug-checked precondition": when the two values
    differ a debug build stops there; a release build has no check and goes
    on.  The embedding goes on as the release build does and records where
    the debug build would have stopped. *)
Definition DEBUG_ASSERT_EQ (expected : ServerState) (msg : string) : Srv unit :=
  let* srv := get in
  if decide (expected = m_state srv) then ret tt else emit (DebugAssertFailed msg).

(** Modelled from the spec: [LOGMSG_ASSERT(false, msg)] is a macro of the
    logging library; it "logs an assertion failure" and the function goes on
    to its [return false]. *)
Definition LOGMSG_ASSERT_false (msg : string) : Srv unit :=
  emit (LogAssertFailed msg).

(** [m_builder.RegisterService(svc)] *)
Definition builder_RegisterService (svc : AsyncService) : Srv unit :=
  let* srv := get in
  put {| m_state := m_state srv; m_num_threads := m_num_threads srv;
         m_builder := m_builder srv ++ [svc]; m_threads := m_threads srv;
         m_cqs := m_cqs srv; m_services := m_services srv;
         m_rpc_registry := m_rpc_registry srv |}.

(** [std::unordered_map::insert]: a key already present keeps its value. *)
Definition unordered_map_insert (k : const_char_ptr) (v : AsyncService)
    (m : gmap Z AsyncService) : gmap Z AsyncService :=
  match m !! k with
  | Some _ => m
  | None => <[k := v]> m
  end.

(** [m_services.insert({name, svc})] *)
Definition services_insert (name : const_char_ptr) (svc : AsyncService) : Srv unit :=
  let* srv := get in
  put {| m_state := m_state srv; m_num_threads := m_num_threads srv;
         m_builder := m_builder srv; m_threads := m_threads srv;
         m_cqs := m_cqs srv;
         m_services := unordered_map_insert name svc (m_services srv);
         m_rpc_registry := m_rpc_registry srv |}.

(** [GrpcServer::register_async_service<ServiceT>()].  The map is a
    [std::unordered_map<const char*, ::grpc::Service*>]: [find] hashes and
    compares the address. *)
Definition register_async_service (Svc : ServiceT) : Srv bool :=
  DEBUG_ASSERT_EQ INITED "register service in non-INITED state" ;;
  let name := service_full_name Svc in
  let* srv := get in
  match m_services srv !! name with
  | Some _ =>
      LOGMSG_ASSERT_false "Duplicate register async service" ;;
      ret false
  | None =>
      let svc := {| svc_type := Svc |} in
      builder_RegisterService svc ;;
      services_insert name svc ;;
      ret true
  end.

(** [m_rpc_registry.emplace_back(info)] *)
Definition registry_emplace_back (info : RpcStaticInfo) : Srv unit :=
  let* srv := get in
  put {| m_state := m_state srv; m_num_threads := m_num_threads srv;
         m_builder := m_builder srv; m_threads := m_threads srv;
         m_cqs := m_cqs srv; m_services := m_services srv;
         m_rpc_registry := m_rpc_registry srv ++ [info] |} ;;
  emit (RegistryAppended (m_rpc_idx info)).

(** Modelled from the spec: [RpcData<...>::make(info, i)], declared in
    [rpc_call.hpp], creates the Call Lifecycle Object of a method on queue
    [i]; a fresh object is "awaiting next call". *)
Definition RpcData_make (streaming : bool) (rpc_info : nat) (queue_idx : nat) : RpcData :=
  {| m_rpc_info := rpc_info; m_queue_idx := queue_idx;
     data_streaming := streaming; call_state := AWAITING_CALL |}.

(** Modelled from the spec: [rpc_call->enqueue_call_request] on queue [i] of
    [m_cqs], declared in [rpc_call.hpp], posts the object to that queue. *)
Definition enqueue_call_request (rpc_call : RpcData) (i : nat) : Srv unit :=
  let* srv := get in
  put {| m_state := m_state srv; m_num_threads := m_num_threads srv;
         m_builder := m_builder srv; m_threads := m_threads srv;
         m_cqs := alter (λ cq, cq ++ [rpc_call]) i (m_cqs srv);
         m_services := m_services srv;
         m_rpc_registry := m_rpc_registry srv |} ;;
  emit (CallEnqueued (m_rpc_info rpc_call) i).

(** The loop [for (auto i = 0u; i < m_cqs.size(); ++i)] with [todo]
    iterations left; the queues are as many as the worker threads, a
    [uint32_t], so the counter does not wrap. *)
Fixpoint register_one_call_per_cq (rpc_idx : nat) (todo : nat) (i : nat) : Srv unit :=
  match todo with
  | O => ret tt
  | S todo' =>
      let rpc_call := RpcData_make false rpc_idx i in
      enqueue_call_request rpc_call i ;;
      register_one_call_per_cq rpc_idx todo' (S i)
  end.

(** [GrpcServer::register_rpc<ServiceT, ReqT, RespT, streaming>(name,
    request_call_cb, rpc_handler, done_handler)].  The body instantiates
    [RpcStaticInfo<ServiceT, ReqT, RespT, false>] and
    [RpcData<ServiceT, ReqT, RespT, false>]. *)
Definition register_rpc (Svc : ServiceT) (ReqT RespT : type_tag) (streaming : bool)
    (name : string) (request_call_cb rpc_handler done_handler : callback) : Srv bool :=
  DEBUG_ASSERT_EQ RUNNING "register service in non-INITED state" ;;
  let* srv := get in
  match m_services srv !! service_full_name Svc with
  | None =>
      LOGMSG_ASSERT_false "RPC registration attempted before service is registered" ;;
      ret false
  | Some svc =>
      emit RegistryLocked ;;
      let rpc_idx := length (m_rpc_registry srv) in
      registry_emplace_back
        {| m_svc := svc; m_req_call_cb := request_call_cb;
           m_handler_cb := rpc_handler; m_comp_cb := done_handler;
           m_rpc_idx := rpc_idx; m_rpc_name := name;
           info_req_t := ReqT; info_resp_t := RespT;
           info_streaming := false |} ;;
      register_one_call_per_cq rpc_idx (length (m_cqs srv)) 0 ;;
      emit RegistryUnlocked ;;
      ret true
  end.

(** *** Notions used to state what the registration functions do *)

(** The trace of the debug check on entry. *)
Definition debug_check (expected : ServerState) (msg : string) (srv : GrpcServer)
    : list Effect :=
  if decide (expected = m_state srv) then [] else [DebugAssertFailed msg].

Definition set_services (m : gmap Z AsyncService) (b : list AsyncService)
    (srv : GrpcServer) : GrpcServer :=
  {| m_state := m_state srv; m_num_threads := m_num_threads srv;
     m_builder := b; m_threads := m_threads srv;
     m_cqs := m_cqs srv; m_services := m; m_rpc_registry := m_rpc_registry srv |}.

Definition set_registry (reg : list RpcStaticInfo) (cqs : list ServerCompletionQueue)
    (srv : GrpcServer) : GrpcServer :=
  {| m_state := m_state srv; m_num_threads := m_num_threads srv;
     m_builder := m_builder srv; m_threads := m_threads srv;
     m_cqs := cqs; m_services := m_services srv; m_rpc_registry := reg |}.

(** The queues after the loop of [register_rpc] has run from queue [i] for
    [todo] iterations. *)
Definition armed (rpc_idx i todo : nat) (cqs : list ServerCompletionQueue)
    : list ServerCompletionQueue :=
  imap (λ j cq,
          if decide (i ≤ j < i + todo)%nat then cq ++ [RpcData_make false rpc_idx j]
          else cq) cqs.

(** *** The object before and between calls *)

(** The default member initialisers of the class: [m_state{ServerState::VOID}],
    [m_num_threads{0}], empty containers. *)
Definition GrpcServer_members : GrpcServer :=
  {| m_state := VOID; m_num_threads := 0%Z; m_builder := []; m_threads := [];
     m_cqs := []; m_services := ∅; m_rpc_registry := [] |}.

(** A call of one of the two registration templates of the header. *)
Inductive RegistrationCall : Type :=
  | CallRegisterService (Svc : ServiceT)
  | CallRegisterRpc (Svc : ServiceT) (ReqT RespT : type_tag) (streaming : bool)
      (name : string) (request_call_cb rpc_handler done_handler : callback).

Definition registration_call (c : RegistrationCall) : Srv bool :=
  match c with
  | CallRegisterService Svc => register_async_service Svc
  | CallRegisterRpc Svc ReqT RespT streaming name cb1 cb2 cb3 =>
      register_rpc Svc ReqT RespT streaming name cb1 cb2 cb3
  end.

(** A sequence of calls, one after the other on the same server; the
    results are kept in call order. *)
Fixpoint sequence {C : Type} (call : C → Srv bool) (cs : list C) : Srv (list bool) :=
  match cs with
  | [] => ret []
  | c :: cs' =>
      let* r := call c in
      let* rs := sequence call cs' in
      ret (r :: rs)
  end.

(** Every record of the registry carries its own position. *)
Definition registry_indexed (reg : list RpcStaticInfo) : Prop :=
  ∀ i info, reg !! i = Some info → m_rpc_idx info = i.

(** The call objects of method [rpc_idx] posted to a queue and awaiting a
    call. *)
Definition awaiting_on (rpc_idx : nat) (cq : ServerCompletionQueue) : list RpcData :=
  filter (λ c, m_rpc_info c = rpc_idx ∧ call_state c = AWAITING_CALL) cq.

(** *** A small server to run the functions on *)

(** Two service types whose names are the same characters at two
    addresses. *)
Definition Greeter : ServiceT :=
  {| service_full_name := 4096%Z; service_name_chars := "helloworld.Greeter" |}.

Definition Greeter_twin : ServiceT :=
  {| service_full_name := 8192%Z; service_name_chars := "helloworld.Greeter" |}.

Definition Echo : ServiceT :=
  {| service_full_name := 4128%Z; service_name_chars := "echo.Echo" |}.

(** A server built for two threads. *)
Definition server_inited : GrpcServer :=
  {| m_state := INITED; m_num_threads := 2%Z; m_builder := []; m_threads := [];
     m_cqs := [[]; []]; m_services := ∅; m_rpc_registry := [] |}.

(** The same server, running, with [Greeter] registered. *)
Definition server_running : GrpcServer :=
  {| m_state := RUNNING; m_num_threads := 2%Z;
     m_builder := [{| svc_type := Greeter |}]; m_threads := [0; 1]%nat;
     m_cqs := [[]; []];
     m_services := {[ 4096%Z := {| svc_type := Greeter |} ]};
     m_rpc_registry := [] |}.

(** *** Server lifecycle *)

(** The operations that write [m_state]. *)
Inductive LifecycleOp : Type :=
  | Construct (threads : nat)
  | Run
  | Shutdown
  | ThreadsJoined.

Definition with_state (st : ServerState) (srv : GrpcServer) : GrpcServer :=
  {| m_state := st; m_num_threads := m_num_threads srv;
     m_builder := m_builder srv; m_threads := m_threads srv;
     m_cqs := m_cqs srv; m_services := m_services srv;
     m_rpc_registry := m_rpc_registry srv |}.

(** Modelled from the spec: the constructor, [run] and [shutdown] are
    declared in the header and defined in [rpc_server.cpp].
    - construct "allocates thread_count independent completion queues;
      sets state to INITED";
    - run is "valid only in INITED state. Transitions to RUNNING, ... spawns
      thread_count worker threads";
    - shutdown is "valid from RUNNING (idempotent no-op if already
      SHUTTING_DOWN/TERMINATED). Sets state to SHUTTING_DOWN, ... Joins all
      worker threads, then sets state to TERMINATED"; the join is a step of
      its own here.
    "Any operation not enumerated as valid for the current state asserts in
    debug builds and is undefined in release builds": there the step has no
    result. *)
Definition lifecycle_step (op : LifecycleOp) (srv : GrpcServer) : option GrpcServer :=
  match op, m_state srv with
  | Construct threads, VOID =>
      Some {| m_state := INITED; m_num_threads := Z.of_nat threads;
              m_builder := m_builder srv; m_threads := m_threads srv;
              m_cqs := replicate threads [];
              m_services := m_services srv;
              m_rpc_registry := m_rpc_registry srv |}
  | Run, INITED =>
      Some {| m_state := RUNNING; m_num_threads := m_num_threads srv;
              m_builder := m_builder srv;
              m_threads := seq 0 (Z.to_nat (m_num_threads srv));
              m_cqs := m_cqs srv; m_services := m_services srv;
              m_rpc_registry := m_rpc_registry srv |}
  | Shutdown, RUNNING => Some (with_state SHUTTING_DOWN srv)
  | Shutdown, SHUTTING_DOWN => Some srv
  | Shutdown, TERMINATED => Some srv
  | ThreadsJoined, SHUTTING_DOWN =>
      Some {| m_state := TERMINATED; m_num_threads := m_num_threads srv;
              m_builder := m_builder srv; m_threads := [];
              m_cqs := m_cqs srv; m_services := m_services srv;
              m_rpc_registry := m_rpc_registry srv |}
  | _, _ => None
  end.

(** The states the server goes through under a sequence of lifecycle
    operations, the starting state first; [None] when an operation is not
    valid where it is called. *)
Fixpoint lifecycle_states (ops : list LifecycleOp) (srv : GrpcServer)
    : option (list ServerState) :=
  match ops with
  | [] => Some [m_state srv]
  | op :: ops' =>
      match lifecycle_step op srv with
      | None => None
      | Some srv' =>
          match lifecycle_states ops' srv' with
          | None => None
          | Some sts => Some (m_state srv :: sts)
          end
      end
  end.

(** One forward move along VOID, INITED, RUNNING, SHUTTING_DOWN,
    TERMINATED. *)
Definition next_state (st : ServerState) : option ServerState :=
  match st with
  | VOID => Some INITED
  | INITED => Some RUNNING
  | RUNNING => Some SHUTTING_DOWN
  | SHUTTING_DOWN => Some TERMINATED
  | TERMINATED => None
  end.

(** Two consecutive states are the same state or one forward move. *)
Definition stays_or_advances (a b : ServerState) : Prop :=
  b = a ∨ next_state a = Some b.

Fixpoint chain (sts : list ServerState) : Prop :=
  match sts with
  | a :: (b :: _) as rest => stays_or_advances a b ∧ chain rest
  | _ => True
  end.

(** *** Call Lifecycle Object and the worker of one queue *)

(** What one call of [advance] does, step by step. *)
Inductive MicroStep : Type :=
  | SetState (slot : nat) (st : CallState)
  | ArmSlot (method : nat)
  | HandlerEnter (method : nat)
  | HandlerReturn
  | CompletionCallback (method : nat) (ok : bool).

#[global] Instance MicroStep_eq_dec : EqDecision MicroStep.
Proof. solve_decision. Defined.

(** Modelled from the spec: [advance(ok)] of a Call Lifecycle Object
    ([RpcData], declared in [rpc_call.hpp]) sitting in slot [slot] of its
    queue.
    - AWAITING_CALL, ok: the object goes to PROCESSING; it "immediately arms
      a sibling replacement object in AWAITING_CALL for the same (method,
      queue) pair", then "invokes the method's handler callback", which runs
      "inline on the worker thread";
    - AWAITING_CALL, not ok: it "transitions directly to DONE and is
      discarded without invoking any user callback";
    - AWAITING_COMPLETION: DONE, and the completion callback, when one was
      given, "is invoked here with the outcome".
    The move from PROCESSING to AWAITING_COMPLETION is not driven by a tag
    (see [handler_finished]). *)
Definition advance (has_comp_cb : bool) (slot : nat) (obj : RpcData) (ok : bool)
    : list MicroStep :=
  match call_state obj with
  | AWAITING_CALL =>
      if ok then
        [SetState slot PROCESSING; ArmSlot (m_rpc_info obj);
         HandlerEnter (m_rpc_info obj); HandlerReturn]
      else [SetState slot DONE]
  | AWAITING_COMPLETION =>
      if has_comp_cb then [CompletionCallback (m_rpc_info obj) ok; SetState slot DONE]
      else [SetState slot DONE]
  | PROCESSING | DONE => []
  end.

(** The worker thread of one completion queue: the call objects of that
    queue, by slot, and the method whose handler the thread is inside, if
    any. *)
Record Worker : Type := {
  w_queue : nat;
  w_slots : list RpcData;
  w_in_handler : option nat
}.

Definition set_call_state (st : CallState) (obj : RpcData) : RpcData :=
  {| m_rpc_info := m_rpc_info obj; m_queue_idx := m_queue_idx obj;
     data_streaming := data_streaming obj; call_state := st |}.

Definition micro_step (ms : MicroStep) (w : Worker) : Worker :=
  match ms with
  | SetState slot st =>
      {| w_queue := w_queue w; w_slots := alter (set_call_state st) slot (w_slots w);
         w_in_handler := w_in_handler w |}
  | ArmSlot method =>
      {| w_queue := w_queue w;
         w_slots := w_slots w ++ [RpcData_make false method (w_queue w)];
         w_in_handler := w_in_handler w |}
  | HandlerEnter method =>
      {| w_queue := w_queue w; w_slots := w_slots w; w_in_handler := Some method |}
  | HandlerReturn =>
      {| w_queue := w_queue w; w_slots := w_slots w; w_in_handler := None |}
  | CompletionCallback _ _ => w
  end.

(** What reaches the worker of a queue: a tag drained from the queue with
    its success flag, the end of the work a handler started, and a
    registration arming the queue for a method. *)
Inductive WorkerEvent : Type :=
  | Tag (slot : nat) (ok : bool)
  | HandlerFinished (slot : nat)
  | Registered (method : nat).

(** Modelled from the spec: "PROCESSING --(handler finishes)-->
    AWAITING_COMPLETION". *)
Definition handler_finished (slot : nat) (w : Worker) : list MicroStep :=
  match w_slots w !! slot with
  | Some obj =>
      match call_state obj with
      | PROCESSING => [SetState slot AWAITING_COMPLETION]
      | _ => []
      end
  | None => []
  end.

(** Modelled from the spec: the dispatch loop resolves "the tag to its
    owning Call Lifecycle Object" and invokes its [advance]. *)
Definition event_steps (has_comp_cb : nat → bool) (ev : WorkerEvent) (w : Worker)
    : list MicroStep :=
  match ev with
  | Tag slot ok =>
      match w_slots w !! slot with
      | Some obj => advance (has_comp_cb (m_rpc_info obj)) slot obj ok
      | None => []
      end
  | HandlerFinished slot => handler_finished slot w
  | Registered method => [ArmSlot method]
  end.

(** The states a worker is in after each step of a list of steps. *)
Fixpoint run_steps (steps : list MicroStep) (w : Worker) : list Worker :=
  match steps with
  | [] => []
  | ms :: steps' => let w' := micro_step ms w in w' :: run_steps steps' w'
  end.

(** The state after a list of steps. *)
Definition after_steps (steps : list MicroStep) (w : Worker) : Worker :=
  foldl (λ w' ms, micro_step ms w') w steps.

(** Every state a worker goes through under a sequence of events, one per
    step, in order. *)
Fixpoint worker_run (has_comp_cb : nat → bool) (evs : list WorkerEvent) (w : Worker)
    : list Worker :=
  match evs with
  | [] => []
  | ev :: evs' =>
      let steps := event_steps has_comp_cb ev w in
      run_steps steps w ++ worker_run has_comp_cb evs' (after_steps steps w)
  end.

(** The worker of queue [q] when the server starts: no call object, no
    handler running. *)
Definition Worker_start (q : nat) : Worker :=
  {| w_queue := q; w_slots := []; w_in_handler := None |}.

(** While the thread is inside the handler of a method, the queue has a
    call object of that method awaiting a call. *)
Definition listening_while_handling (w : Worker) : Prop :=
  ∀ method, w_in_handler w = Some method →
    ∃ obj, obj ∈ w_slots w ∧ m_rpc_info obj = method ∧
           m_queue_idx obj = w_queue w ∧ call_state obj = AWAITING_CALL.

(** *** Further members and notions *)

(** [bool is_terminated() const] *)
Definition is_terminated (srv : GrpcServer) : bool :=
  bool_decide (m_state srv = TERMINATED).

(** Reading a trace with the registry lock held or not: the lock is taken
    only when free and released only when held, and the registry and the
    queues are written only while it is held.  The result is whether the
    lock is held at the end; [None] when the trace breaks the discipline. *)
Fixpoint lock_discipline (held : bool) (t : list Effect) : option bool :=
  match t with
  | [] => Some held
  | RegistryLocked :: t' => if held then None else lock_discipline true t'
  | RegistryUnlocked :: t' => if held then lock_discipline false t' else None
  | RegistryAppended _ :: t' => if held then lock_discipline true t' else None
  | CallEnqueued _ _ :: t' => if held then lock_discipline true t' else None
  | DebugAssertFailed _ :: t' => lock_discipline held t'
  | LogAssertFailed _ :: t' => lock_discipline held t'
  end.

(** Every call object on a queue points at a record the registry has, and
    sits on the queue it names. *)
Definition calls_refer_to_registry (srv : GrpcServer) : Prop :=
  ∀ q cq obj, m_cqs srv !! q = Some cq → obj ∈ cq →
    m_rpc_info obj < length (m_rpc_registry srv) ∧ m_queue_idx obj = q.

(** The call objects registration alone leaves on queue [q] when [n]
    methods are registered: one per method, in registration order. *)
Definition one_call_per_method (n : nat) (q : nat) : list RpcData :=
  map (λ idx, RpcData_make false idx q) (seq 0 n).

(** Every queue holds exactly the objects registration posts. *)
Definition queues_armed (srv : GrpcServer) : Prop :=
  ∀ q cq, m_cqs srv !! q = Some cq →
    cq = one_call_per_method (length (m_rpc_registry srv)) q.

(** Every service of the map was given to the builder and is stored under
    the address of its own name. *)
Definition services_known_to_builder (srv : GrpcServer) : Prop :=
  ∀ k svc, m_services srv !! k = Some svc →
    svc ∈ m_builder srv ∧ service_full_name (svc_type svc) = k.

End grpc_helper.

(** ** namespace sisl *)

Module sisl.

Local Open Scope Z_scope.

(** Pointers are addresses; the null pointer is address 0. *)
Definition nullptr : Z := 0.

(** [int64_t] arithmetic, two's complement. *)
Definition wrap_int64 (z : Z) : Z := (z + 2 ^ 63) mod 2 ^ 64 - 2 ^ 63.

(** The values the parameter types of the source hold: [uint16_t]
    ([MaxListCount]), [uint32_t] (the sizes passed to the two functions),
    [std::size_t] ([Size]) and [int64_t] ([m_list_count]). *)
Definition is_uint16 (z : Z) : Prop := 0 ≤ z < 2 ^ 16.
Definition is_uint32 (z : Z) : Prop := 0 ≤ z < 2 ^ 32.
Definition is_size_t (z : Z) : Prop := 0 ≤ z < 2 ^ 64.
Definition is_int64 (z : Z) : Prop := - 2 ^ 63 ≤ z < 2 ^ 63.

(** The system allocator behind [malloc] and [free], which the header only
    calls: the blocks handed out and not yet released, and the address of
    the next block.  This one hands out increasing addresses and never
    fails. *)
Record SysHeap : Type := {
  sys_live : gset Z;
  sys_brk : Z
}.

Definition malloc (size : Z) (h : SysHeap) : Z * SysHeap :=
  (sys_brk h,
   {| sys_live := {[sys_brk h]} ∪ sys_live h;
      sys_brk := sys_brk h + Z.max size 1 |}).

Definition free (p : Z) (h : SysHeap) : SysHeap :=
  {| sys_live := sys_live h ∖ {[p]}; sys_brk := sys_brk h |}.

(** The counters of [FreeListAllocatorMetrics]. *)
Record Metrics : Type := {
  freelist_alloc_hit : Z;
  freelist_alloc_miss : Z;
  freelist_dealloc_passthru : Z;
  freelist_dealloc : Z;
  freelist_alloc_size : Z;
  freelist_cache_size : Z
}.

(** What the allocator works on outside its own object: the [next] field of
    the [free_list_header] written at the start of a block, by address of the
    block, the system allocator and the metrics. *)
Record Memory : Type := {
  next_at : gmap Z Z;
  sys : SysHeap;
  counters : Metrics
}.

(** The data members of [FreeListAllocatorImpl]; [m_list_count] is an
    [int64_t]. *)
Record FreeListAllocatorImpl : Type := {
  m_head : Z;
  m_list_count : Z
}.

(** [FreeListAllocatorImpl() : m_head(nullptr), m_list_count(0)] *)
Definition FreeListAllocatorImpl_new : FreeListAllocatorImpl :=
  {| m_head := nullptr; m_list_count := 0 |}.

Definition add_alloc_miss (v : Z) (c : Metrics) : Metrics :=
  {| freelist_alloc_hit := freelist_alloc_hit c;
     freelist_alloc_miss := freelist_alloc_miss c + v;
     freelist_dealloc_passthru := freelist_dealloc_passthru c;
     freelist_dealloc := freelist_dealloc c;
     freelist_alloc_size := freelist_alloc_size c;
     freelist_cache_size := freelist_cache_size c |}.

Definition add_alloc_hit (v : Z) (c : Metrics) : Metrics :=
  {| freelist_alloc_hit := freelist_alloc_hit c + v;
     freelist_alloc_miss := freelist_alloc_miss c;
     freelist_dealloc_passthru := freelist_dealloc_passthru c;
     freelist_dealloc := freelist_dealloc c;
     freelist_alloc_size := freelist_alloc_size c;
     freelist_cache_size := freelist_cache_size c |}.

Definition add_dealloc_passthru (v : Z) (c : Metrics) : Metrics :=
  {| freelist_alloc_hit := freelist_alloc_hit c;
     freelist_alloc_miss := freelist_alloc_miss c;
     freelist_dealloc_passthru := freelist_dealloc_passthru c + v;
     freelist_dealloc := freelist_dealloc c;
     freelist_alloc_size := freelist_alloc_size c;
     freelist_cache_size := freelist_cache_size c |}.

Definition add_dealloc (v : Z) (c : Metrics) : Metrics :=
  {| freelist_alloc_hit := freelist_alloc_hit c;
     freelist_alloc_miss := freelist_alloc_miss c;
     freelist_dealloc_passthru := freelist_dealloc_passthru c;
     freelist_dealloc := freelist_dealloc c + v;
     freelist_alloc_size := freelist_alloc_size c;
     freelist_cache_size := freelist_cache_size c |}.

Definition add_alloc_size (v : Z) (c : Metrics) : Metrics :=
  {| freelist_alloc_hit := freelist_alloc_hit c;
     freelist_alloc_miss := freelist_alloc_miss c;
     freelist_dealloc_passthru := freelist_dealloc_passthru c;
     freelist_dealloc := freelist_dealloc c;
     freelist_alloc_size := freelist_alloc_size c + v;
     freelist_cache_size := freelist_cache_size c |}.

Definition add_cache_size (v : Z) (c : Metrics) : Metrics :=
  {| freelist_alloc_hit := freelist_alloc_hit c;
     freelist_alloc_miss := freelist_alloc_miss c;
     freelist_dealloc_passthru := freelist_dealloc_passthru c;
     freelist_dealloc := freelist_dealloc c;
     freelist_alloc_size := freelist_alloc_size c;
     freelist_cache_size := freelist_cache_size c + v |}.

(** [COUNTER_INCREMENT_IF_ENABLED] and [COUNTER_DECREMENT_IF_ENABLED] act on
    the counters only. *)
Definition count (f : Metrics → Metrics) (mem : Memory) : Memory :=
  {| next_at := next_at mem; sys := sys mem; counters := f (counters mem) |}.

Section FreeListAllocatorImpl.

(** The template parameters: [uint16_t MaxListCount], [std::size_t Size]. *)
Variable MaxListCount : Z.
Variable Size : Z.

(** [uint8_t* allocate(uint32_t size_needed)].  [m_head->next] reads the
    [next] field written at the head block; the decrement of [m_list_count]
    comes after the [if], on both paths. *)
Definition allocate (size_needed : Z) (this : FreeListAllocatorImpl) (mem : Memory)
    : Z * FreeListAllocatorImpl * Memory :=
  let '(ptr, head, mem1) :=
    if decide (m_head this = nullptr) then
      let '(p, h) := malloc size_needed (sys mem) in
      (p, m_head this,
       count (add_alloc_miss 1)
         {| next_at := next_at mem; sys := h; counters := counters mem |})
    else
      (m_head this, next_at mem !!! m_head this,
       count (add_cache_size (- size_needed)) (count (add_alloc_hit 1) mem))
  in
  (ptr,
   {| m_head := head; m_list_count := wrap_int64 (m_list_count this - 1) |},
   count (add_alloc_size size_needed) mem1).

(** [bool deallocate(uint8_t* mem, uint32_t size_alloced)].  The two
    comparisons convert [size_alloced] to [std::size_t] and [MaxListCount]
    to [int64_t], which keeps the values.  On the caching path
    [hdr->next = m_head] stores through [mem]: through a null [mem] the
    store faults and the call does not return, which is [None];
    [free(mem)] on the other path takes a null pointer. *)
Definition deallocate (ptr : Z) (size_alloced : Z) (this : FreeListAllocatorImpl)
    (mem : Memory) : option (bool * FreeListAllocatorImpl * Memory) :=
  let mem0 := count (add_alloc_size (- size_alloced)) mem in
  if decide (size_alloced ≠ Size ∨ m_list_count this = MaxListCount) then
    let mem1 :=
      if decide (size_alloced ≠ Size) then count (add_dealloc_passthru 1) mem0
      else mem0 in
    let mem2 :=
      {| next_at := next_at mem1; sys := free ptr (sys mem1);
         counters := counters mem1 |} in
    Some (true, this, count (add_dealloc 1) mem2)
  else
    let mem1 := count (add_cache_size size_alloced) mem0 in
    if decide (ptr = nullptr) then None
    else
      Some (true,
            {| m_head := ptr; m_list_count := wrap_int64 (m_list_count this + 1) |},
            {| next_at := <[ptr := m_head this]> (next_at mem1); sys := sys mem1;
               counters := counters mem1 |}).

(** A call of one of the two member functions. *)
Inductive Call : Type :=
  | CallAllocate (size_needed : Z)
  | CallDeallocate (ptr : Z) (size_alloced : Z).

(** The object and the memory after a call; [None] when the call does not
    return. *)
Definition call (c : Call) (st : FreeListAllocatorImpl * Memory)
    : option (FreeListAllocatorImpl * Memory) :=
  match c with
  | CallAllocate size_needed =>
      let '(_, this', mem') := allocate size_needed st.1 st.2 in Some (this', mem')
  | CallDeallocate ptr size_alloced =>
      match deallocate ptr size_alloced st.1 st.2 with
      | Some (_, this', mem') => Some (this', mem')
      | None => None
      end
  end.

(** Calls made one after the other on the same object, as long as each
    returns. *)
Fixpoint calls (cs : list Call) (st : FreeListAllocatorImpl * Memory)
    : option (FreeListAllocatorImpl * Memory) :=
  match cs with
  | [] => Some st
  | c :: cs' =>
      match call c st with
      | Some st' => calls cs' st'
      | None => None
      end
  end.

End FreeListAllocatorImpl.

(** The free list as the destructor walks it: [hdr], [hdr->next], ... up to
    the null pointer; [l] lists its blocks, head first. *)
Inductive is_free_list (next : gmap Z Z) : Z → list Z → Prop :=
  | free_list_end : is_free_list next nullptr []
  | free_list_node (hdr : Z) (l : list Z) :
      hdr ≠ nullptr →
      is_free_list next (next !!! hdr) l →
      is_free_list next hdr (hdr :: l).

(** The blocks met from [hdr] in at most [fuel] steps. *)
Fixpoint free_list_nodes (fuel : nat) (next : gmap Z Z) (hdr : Z) : list Z :=
  match fuel with
  | O => []
  | S fuel' =>
      if decide (hdr = nullptr) then []
      else hdr :: free_list_nodes fuel' next (next !!! hdr)
  end.

(** A process that has made no call yet: nothing written, nothing handed
    out, the first block at address [base]. *)
Definition Memory_start (base : Z) : Memory :=
  {| next_at := ∅;
     sys := {| sys_live := ∅; sys_brk := base |};
     counters := {| freelist_alloc_hit := 0; freelist_alloc_miss := 0;
                    freelist_dealloc_passthru := 0; freelist_dealloc := 0;
                    freelist_alloc_size := 0; freelist_cache_size := 0 |} |}.

(** The addresses of [n] blocks of [Size] bytes handed out one after the
    other from [base]. *)
Definition block_addresses (Size : Z) (base : Z) (n : nat) : list Z :=
  map (λ k, base + Z.of_nat k * Size) (seq 0 n).

(** The calls that take [n] blocks of [Size] bytes and give them back in
    the order taken. *)
Definition take_and_give_back (Size : Z) (base : Z) (n : nat) : list Call :=
  replicate n (CallAllocate Size)
  ++ map (λ p, CallDeallocate p Size) (block_addresses Size base n).

(** *** The destructor, the thread-local front and notions for sequences of calls *)

(** [~FreeListAllocatorImpl()]: the loop [while (hdr)] reads [hdr->next],
    releases [hdr] and goes on with the block read; [fuel] bounds the
    iterations, [None] when they do not suffice. *)
Fixpoint destroy_loop (fuel : nat) (next : gmap Z Z) (hdr : Z) (h : SysHeap)
    : option SysHeap :=
  if decide (hdr = nullptr) then Some h
  else
    match fuel with
    | O => None
    | S fuel' => destroy_loop fuel' next (next !!! hdr) (free hdr h)
    end.

Definition FreeListAllocatorImpl_destroy (fuel : nat) (this : FreeListAllocatorImpl)
    (mem : Memory) : option Memory :=
  match destroy_loop fuel (next_at mem) (m_head this) (sys mem) with
  | Some h => Some {| next_at := next_at mem; sys := h; counters := counters mem |}
  | None => None
  end.

(** [FreeListAllocator]: [folly::ThreadLocalPtr<FreeListAllocatorImpl<...>>
    m_impl] is one pointer per thread, null until the thread sets it; here
    the object each thread's pointer leads to, by thread. *)
Record FreeListAllocator : Type := {
  m_impl : gmap nat FreeListAllocatorImpl
}.

(** [m_impl.get()] after [if (m_impl.get() == nullptr) m_impl.reset(new
    FreeListAllocatorImpl())], on the calling thread. *)
Definition impl_or_new (thread : nat) (a : FreeListAllocator) : FreeListAllocatorImpl :=
  match m_impl a !! thread with
  | Some impl => impl
  | None => FreeListAllocatorImpl_new
  end.

(** [FreeListAllocator::allocate], called on [thread]. *)
Definition FreeListAllocator_allocate (thread : nat) (size_needed : Z)
    (a : FreeListAllocator) (mem : Memory) : Z * FreeListAllocator * Memory :=
  let '(p, impl', mem') := allocate size_needed (impl_or_new thread a) mem in
  (p, {| m_impl := <[thread := impl']> (m_impl a) |}, mem').

(** [FreeListAllocator::deallocate], called on [thread]. *)
Definition FreeListAllocator_deallocate (MaxListCount Size : Z) (thread : nat)
    (ptr : Z) (size_alloced : Z) (a : FreeListAllocator) (mem : Memory)
    : option (bool * FreeListAllocator * Memory) :=
  match deallocate MaxListCount Size ptr size_alloced (impl_or_new thread a) mem with
  | Some (r, impl', mem') =>
      Some (r, {| m_impl := <[thread := impl']> (m_impl a) |}, mem')
  | None => None
  end.

(** [bool owns(uint8_t* mem) const] and [bool is_thread_safe_allocator()
    const] *)
Definition owns (ptr : Z) : bool := true.
Definition is_thread_safe_allocator : bool := true.

(** The blocks on the list after a call, from the blocks [l] on it and the
    counter before: [allocate] takes the first away, [deallocate] puts its
    block in front unless it releases it. *)
Definition cached_after (MaxListCount Size : Z) (c : Call) (count : Z) (l : list Z)
    : list Z :=
  match c with
  | CallAllocate _ => tail l
  | CallDeallocate ptr size_alloced =>
      if decide (size_alloced ≠ Size ∨ count = MaxListCount) then l else ptr :: l
  end.

Fixpoint cached_after_all (MaxListCount Size : Z) (cs : list Call)
    (st : FreeListAllocatorImpl * Memory) (l : list Z) : list Z :=
  match cs with
  | [] => l
  | c :: cs' =>
      match call MaxListCount Size c st with
      | Some st' =>
          cached_after_all MaxListCount Size cs' st'
            (cached_after MaxListCount Size c (m_list_count st.1) l)
      | None => l
      end
  end.

(** A sequence of calls that gives [deallocate] no null pointer and no
    block that is on the list at that moment. *)
Fixpoint well_used (MaxListCount Size : Z) (cs : list Call)
    (st : FreeListAllocatorImpl * Memory) (l : list Z) : Prop :=
  match cs with
  | [] => True
  | c :: cs' =>
      match c with
      | CallAllocate _ => True
      | CallDeallocate ptr _ => ptr ≠ nullptr ∧ ptr ∉ l
      end ∧
      match call MaxListCount Size c st with
      | Some st' =>
          well_used MaxListCount Size cs' st'
            (cached_after MaxListCount Size c (m_list_count st.1) l)
      | None => False
      end
  end.

(** A sequence of calls that gives [deallocate] no null pointer. *)
Definition no_null_block (cs : list Call) : Prop :=
  ∀ ptr size_alloced, CallDeallocate ptr size_alloced ∈ cs → ptr ≠ nullptr.

(** How many calls of a sequence are [allocate], how many [deallocate], how
    many [deallocate] with a size other than [Size], and the bytes asked for
    less the bytes given back. *)
Fixpoint count_allocate (cs : list Call) : Z :=
  match cs with
  | [] => 0
  | CallAllocate _ :: cs' => 1 + count_allocate cs'
  | CallDeallocate _ _ :: cs' => count_allocate cs'
  end.

Fixpoint count_deallocate (cs : list Call) : Z :=
  match cs with
  | [] => 0
  | CallAllocate _ :: cs' => count_deallocate cs'
  | CallDeallocate _ _ :: cs' => 1 + count_deallocate cs'
  end.

Fixpoint count_other_size (Size : Z) (cs : list Call) : Z :=
  match cs with
  | [] => 0
  | CallAllocate _ :: cs' => count_other_size Size cs'
  | CallDeallocate _ size_alloced :: cs' =>
      (if decide (size_alloced ≠ Size) then 1 else 0) + count_other_size Size cs'
  end.

Fixpoint bytes_outstanding (cs : list Call) : Z :=
  match cs with
  | [] => 0
  | CallAllocate size_needed :: cs' => size_needed + bytes_outstanding cs'
  | CallDeallocate _ size_alloced :: cs' => - size_alloced + bytes_outstanding cs'
  end.

End sisl.

(** * Properties of the server registry *)

Module GrpcServerProofs.

Import grpc_helper.

Lemma DEBUG_ASSERT_EQ_run expected msg srv :
  DEBUG_ASSERT_EQ expected msg srv = (tt, srv, debug_check expected msg srv).
Proof.
  unfold DEBUG_ASSERT_EQ, debug_check, bind, get, ret, emit.
  destruct (decide (expected = m_state srv)); reflexivity.
Qed.

Lemma srv_eta srv :
  {| m_state := m_state srv; m_num_threads := m_num_threads srv;
     m_builder := m_builder srv; m_threads := m_threads srv;
     m_cqs := m_cqs srv; m_services := m_services srv;
     m_rpc_registry := m_rpc_registry srv |} = srv.
Proof. destruct srv; reflexivity. Qed.

(** [register_async_service], run on a server. *)
Lemma register_async_service_run Svc srv :
  register_async_service Svc srv =
  let dbg := debug_check INITED "register service in non-INITED state" srv in
  match m_services srv !! service_full_name Svc with
  | Some _ => (false, srv, dbg ++ [LogAssertFailed "Duplicate register async service"])
  | None =>
      (true,
       set_services (<[service_full_name Svc := {| svc_type := Svc |}]> (m_services srv))
         (m_builder srv ++ [{| svc_type := Svc |}]) srv,
       dbg)
  end.
Proof.
  unfold register_async_service.
  unfold bind at 1. rewrite DEBUG_ASSERT_EQ_run.
  unfold bind, get, LOGMSG_ASSERT_false, emit, ret, builder_RegisterService,
    services_insert, put, unordered_map_insert; simpl.
  destruct (m_services srv !! service_full_name Svc) eqn:Hl; simpl.
  - reflexivity.
  - rewrite Hl. rewrite !app_nil_r. reflexivity.
Qed.

Lemma armed_none rpc_idx i cqs : armed rpc_idx i 0 cqs = cqs.
Proof.
  unfold armed. apply list_eq; intros j. rewrite list_lookup_imap.
  destruct (cqs !! j); simpl; [|done].
  rewrite decide_False by lia. done.
Qed.

Lemma armed_step rpc_idx i todo cqs :
  (i < length cqs)%nat →
  armed rpc_idx (S i) todo (alter (λ cq, cq ++ [RpcData_make false rpc_idx i]) i cqs)
  = armed rpc_idx i (S todo) cqs.
Proof.
  intros Hi. unfold armed. apply list_eq; intros j.
  rewrite !list_lookup_imap.
  destruct (decide (i = j)) as [->|Hne].
  - rewrite list_lookup_alter_eq. destruct (cqs !! j); simpl; [|done].
    rewrite decide_False by lia. rewrite decide_True by lia. done.
  - rewrite list_lookup_alter_ne by done. destruct (cqs !! j); simpl; [|done].
    repeat case_decide; try done; exfalso; lia.
Qed.

(** The loop arms the queues [i], ..., [i + todo - 1], in that order, and
    changes nothing else. *)
Lemma register_one_call_per_cq_run rpc_idx todo :
  ∀ i srv, (i + todo ≤ length (m_cqs srv))%nat →
    register_one_call_per_cq rpc_idx todo i srv =
    (tt, set_registry (m_rpc_registry srv) (armed rpc_idx i todo (m_cqs srv)) srv,
     map (CallEnqueued rpc_idx) (seq i todo)).
Proof.
  induction todo as [|todo IH]; intros i srv Hlen; simpl.
  - rewrite armed_none. unfold ret, set_registry. rewrite srv_eta. done.
  - unfold bind at 1. unfold enqueue_call_request at 1.
    unfold bind at 1 2, get, put, emit; simpl.
    rewrite IH; simpl.
    + rewrite armed_step by lia. unfold set_registry; simpl. done.
    + rewrite length_alter. lia.
Qed.

(** [register_rpc], run on a server. *)
Lemma register_rpc_run Svc ReqT RespT streaming name cb1 cb2 cb3 srv :
  register_rpc Svc ReqT RespT streaming name cb1 cb2 cb3 srv =
  let dbg := debug_check RUNNING "register service in non-INITED state" srv in
  match m_services srv !! service_full_name Svc with
  | None =>
      (false, srv,
       dbg ++ [LogAssertFailed "RPC registration attempted before service is registered"])
  | Some svc =>
      let rpc_idx := length (m_rpc_registry srv) in
      (true,
       set_registry
         (m_rpc_registry srv ++
            [{| m_svc := svc; m_req_call_cb := cb1; m_handler_cb := cb2;
                m_comp_cb := cb3; m_rpc_idx := rpc_idx; m_rpc_name := name;
                info_req_t := ReqT; info_resp_t := RespT; info_streaming := false |}])
         (armed rpc_idx 0 (length (m_cqs srv)) (m_cqs srv)) srv,
       dbg ++ [RegistryLocked; RegistryAppended rpc_idx]
           ++ map (CallEnqueued rpc_idx) (seq 0 (length (m_cqs srv)))
           ++ [RegistryUnlocked])
  end.
Proof.
  unfold register_rpc.
  unfold bind at 1. rewrite DEBUG_ASSERT_EQ_run.
  unfold bind at 1. unfold get at 1.
  destruct (m_services srv !! service_full_name Svc) as [svc|] eqn:Hl; simpl.
  - unfold bind at 1. unfold emit at 1.
    unfold bind at 1. unfold registry_emplace_back at 1.
    unfold bind at 1 2, get, put, emit at 1; simpl.
    unfold bind at 1.
    rewrite register_one_call_per_cq_run by (simpl; lia). simpl.
    unfold bind, emit, ret, set_registry; simpl.
    rewrite ?app_nil_r, <- ?app_assoc. simpl. reflexivity.
  - unfold bind, LOGMSG_ASSERT_false, emit, ret; simpl. reflexivity.
Qed.

(** What [register_rpc] appends to a queue is awaiting a call and belongs
    to the method and the queue. *)
Lemma armed_lookup rpc_idx cqs q cq :
  cqs !! q = Some cq →
  armed rpc_idx 0 (length cqs) cqs !! q = Some (cq ++ [RpcData_make false rpc_idx q]).
Proof.
  intros Hq. unfold armed. rewrite list_lookup_imap, Hq. simpl.
  apply lookup_lt_Some in Hq. rewrite decide_True by lia. done.
Qed.

Lemma armed_length rpc_idx i todo cqs :
  length (armed rpc_idx i todo cqs) = length cqs.
Proof. unfold armed. apply length_imap. Qed.

Lemma awaiting_on_old rpc_idx (cq : list RpcData) :
  (∀ obj, obj ∈ cq → m_rpc_info obj < rpc_idx) → awaiting_on rpc_idx cq = [].
Proof.
  intros Hold. unfold awaiting_on. induction cq as [|obj cq IH]; [done|].
  rewrite filter_cons. rewrite decide_False.
  - apply IH. intros o Ho. apply Hold. by right.
  - intros [Heq _]. assert (m_rpc_info obj < rpc_idx) by (apply Hold; by left). lia.
Qed.

(** C1. A call of [register_rpc] that returns true on a running server
    with [thread_count] completion queues takes the registry lock, appends
    exactly one record, then posts exactly one new call object to every
    queue, queue 0 first, each awaiting a call, and releases the lock; so
    [thread_count] objects in all, one per queue. *)
Theorem register_rpc_arms_one_call_per_queue
    Svc ReqT RespT streaming name cb1 cb2 cb3 srv (thread_count : nat) :
  m_state srv = RUNNING →
  length (m_cqs srv) = thread_count →
  let r := register_rpc Svc ReqT RespT streaming name cb1 cb2 cb3 srv in
  let rpc_idx := length (m_rpc_registry srv) in
  result r = true →
  (∃ info, m_rpc_registry (server_after r) = m_rpc_registry srv ++ [info]) ∧
  trace r = [RegistryLocked; RegistryAppended rpc_idx]
            ++ map (CallEnqueued rpc_idx) (seq 0 thread_count)
            ++ [RegistryUnlocked] ∧
  length (m_cqs (server_after r)) = thread_count ∧
  (∀ q cq, m_cqs srv !! q = Some cq →
     ∃ obj, m_cqs (server_after r) !! q = Some (cq ++ [obj]) ∧
            m_rpc_info obj = rpc_idx ∧ m_queue_idx obj = q ∧
            call_state obj = AWAITING_CALL) ∧
  ((∀ cq obj, cq ∈ m_cqs srv → obj ∈ cq → m_rpc_info obj < rpc_idx) →
   ∀ q cq', m_cqs (server_after r) !! q = Some cq' →
     length (awaiting_on rpc_idx cq') = 1).
Proof.
  intros Hrun Hlen r rpc_idx. subst r rpc_idx.
  rewrite register_rpc_run. unfold debug_check. rewrite Hrun.
  destruct (m_services srv !! service_full_name Svc) as [svc|];
    unfold result, server_after, trace; simpl; [intros _|discriminate].
  rewrite Hlen. split_and!.
  - eauto.
  - reflexivity.
  - rewrite armed_length. done.
  - intros q cq Hq. exists (RpcData_make false (length (m_rpc_registry srv)) q).
    split; [|done]. rewrite <- Hlen. by apply armed_lookup.
  - intros Hold q cq' Hq'.
    destruct (m_cqs srv !! q) as [cq|] eqn:Hq.
    + rewrite <- Hlen in Hq'. rewrite (armed_lookup _ _ _ _ Hq) in Hq'.
      injection Hq' as <-. unfold awaiting_on. rewrite filter_app.
      fold (awaiting_on (length (m_rpc_registry srv)) cq).
      rewrite awaiting_on_old.
      * rewrite filter_cons, decide_True by done. done.
      * intros obj Hobj. eapply Hold; [|done]. eapply list_elem_of_lookup_2; done.
    + apply lookup_lt_Some in Hq'. rewrite armed_length in Hq'.
      apply lookup_ge_None in Hq. lia.
Qed.

Lemma register_rpc_arms_one_call_per_queue_witness :
  length (m_cqs (server_after
    (register_rpc Greeter "HelloRequest" "HelloReply" false "SayHello"
       (Some 1) (Some 2) None server_running))) = 2.
Proof.
  refine (proj1 (proj2 (proj2
    (register_rpc_arms_one_call_per_queue Greeter "HelloRequest" "HelloReply"
       false "SayHello" (Some 1) (Some 2) None server_running 2 _ _ _)))).
  - reflexivity.
  - reflexivity.
  - vm_compute. reflexivity.
Defined.

(** C2. Registered with the streaming flag set, a method still gets a
    record and call objects of the unary shape: the body passes the
    constant [false] where the flag belongs. *)
Theorem register_rpc_drops_streaming_flag :
  let r := register_rpc Greeter "HelloRequest" "HelloReply" true "SayHelloStream"
             (Some 1) (Some 2) None server_running in
  result r = true ∧
  map info_streaming (m_rpc_registry (server_after r)) = [false] ∧
  map (map data_streaming) (m_cqs (server_after r)) = [[false]; [false]].
Proof. vm_compute. done. Qed.

(** The flag has no influence on what [register_rpc] does. *)
Lemma register_rpc_streaming_irrelevant Svc ReqT RespT streaming name cb1 cb2 cb3 srv :
  register_rpc Svc ReqT RespT streaming name cb1 cb2 cb3 srv =
  register_rpc Svc ReqT RespT false name cb1 cb2 cb3 srv.
Proof. reflexivity. Qed.

(** A run of service registrations, in terms of single calls. *)
Lemma sequence_cons {C : Type} (f : C → Srv bool) c cs srv :
  sequence f (c :: cs) srv =
  let r := f c srv in
  let rs := sequence f cs (server_after r) in
  (result r :: result rs, server_after rs, trace r ++ trace rs).
Proof.
  simpl. unfold bind, ret, result, server_after, trace.
  destruct (f c srv) as [[a s1] t1]; simpl.
  destruct (sequence f cs s1) as [[rs s2] t2]; simpl.
  rewrite app_nil_r. reflexivity.
Qed.

(** C3. Registering a service whose name is in the service map returns
    false, logs an assertion failure and leaves the server as it was;
    registering services with pairwise distinct names, none of them in the
    map, succeeds every time. *)
Theorem register_async_service_duplicate_rejected :
  (∀ Svc srv,
     is_Some (m_services srv !! service_full_name Svc) →
     let r := register_async_service Svc srv in
     result r = false ∧ server_after r = srv ∧
     LogAssertFailed "Duplicate register async service" ∈ trace r) ∧
  (∀ svcs srv,
     NoDup (service_full_name <$> svcs) →
     (∀ Svc, Svc ∈ svcs → m_services srv !! service_full_name Svc = None) →
     result (sequence register_async_service svcs srv)
     = replicate (length svcs) true).
Proof.
  split.
  - intros Svc srv [svc Hsvc] r. subst r.
    rewrite register_async_service_run, Hsvc.
    unfold result, server_after, trace; simpl. split_and!; [done..|].
    apply elem_of_app. right. by left.
  - induction svcs as [|Svc svcs IH]; intros srv Hnd Hfresh; [done|].
    rewrite sequence_cons. unfold result at 1; simpl.
    rewrite fmap_cons in Hnd. apply NoDup_cons in Hnd as [Hnotin Hnd].
    assert (m_services srv !! service_full_name Svc = None) as Hhead
      by (apply Hfresh; by left).
    f_equal.
    + rewrite register_async_service_run, Hhead. done.
    + apply IH; [done|]. intros Svc' Hin.
      rewrite register_async_service_run, Hhead.
      unfold server_after; simpl.
      rewrite lookup_insert_ne.
      * apply Hfresh. by right.
      * intros Heq. apply Hnotin. rewrite Heq. by apply list_elem_of_fmap_2.
Qed.

Lemma register_async_service_duplicate_rejected_witness :
  result (register_async_service Greeter server_running) = false ∧
  result (sequence register_async_service [Greeter; Echo] server_inited) = [true; true].
Proof.
  split.
  - refine (proj1 (proj1 register_async_service_duplicate_rejected
                     Greeter server_running _)).
    vm_compute. eauto.
  - refine (proj2 register_async_service_duplicate_rejected
              [Greeter; Echo] server_inited _ _).
    + simpl. apply NoDup_cons. split; [|apply NoDup_singleton].
      intros Hin. apply list_elem_of_singleton in Hin. discriminate Hin.
    + intros Svc _. reflexivity.
Defined.

(** C4. [register_rpc] for a service that is not in the service map
    returns false and logs; the server, its registry and queues included, is
    left as it was: nothing is appended and no call object is posted. *)
Theorem register_rpc_unregistered_service_rejected
    Svc ReqT RespT streaming name cb1 cb2 cb3 srv :
  m_services srv !! service_full_name Svc = None →
  let r := register_rpc Svc ReqT RespT streaming name cb1 cb2 cb3 srv in
  result r = false ∧
  server_after r = srv ∧
  trace r = debug_check RUNNING "register service in non-INITED state" srv
            ++ [LogAssertFailed "RPC registration attempted before service is registered"] ∧
  (∀ e, e ∈ trace r →
     ∃ msg, e = DebugAssertFailed msg ∨ e = LogAssertFailed msg).
Proof.
  intros Hnone r. subst r. rewrite register_rpc_run, Hnone.
  unfold result, server_after, trace; simpl. split_and!; [done..|].
  intros e He. apply elem_of_app in He as [He|He].
  - unfold debug_check in He. case_decide; [by apply elem_of_nil in He|].
    apply list_elem_of_singleton in He. eauto.
  - apply list_elem_of_singleton in He. eauto.
Qed.

Lemma register_rpc_unregistered_service_rejected_witness :
  server_after (register_rpc Echo "Ping" "Pong" false "Echo" (Some 1) (Some 2) None
                  server_running) = server_running.
Proof.
  refine (proj1 (proj2
    (register_rpc_unregistered_service_rejected Echo "Ping" "Pong" false "Echo"
       (Some 1) (Some 2) None server_running _))).
  vm_compute. reflexivity.
Defined.

(** One registration call extends the registry at its end, and what it
    adds carries its own position. *)
Lemma registration_call_extends c srv :
  ∃ ext,
    m_rpc_registry (server_after (registration_call c srv)) = m_rpc_registry srv ++ ext ∧
    ∀ j info, ext !! j = Some info → m_rpc_idx info = length (m_rpc_registry srv) + j.
Proof.
  destruct c as [Svc|Svc ReqT RespT streaming name cb1 cb2 cb3]; simpl.
  - exists []. rewrite register_async_service_run, app_nil_r.
    split; [|intros j info Hj; by rewrite lookup_nil in Hj].
    destruct (m_services srv !! service_full_name Svc); reflexivity.
  - rewrite register_rpc_run.
    destruct (m_services srv !! service_full_name Svc) as [svc|];
      unfold server_after; simpl.
    + eexists. split; [reflexivity|].
      intros [|j] info Hj; simpl in Hj; [|by rewrite lookup_nil in Hj].
      injection Hj as <-. simpl. lia.
    + exists []. rewrite app_nil_r. split; [done|].
      intros j info Hj. by rewrite lookup_nil in Hj.
Qed.

Lemma registry_indexed_app reg ext :
  registry_indexed reg →
  (∀ j info, ext !! j = Some info → m_rpc_idx info = length reg + j) →
  registry_indexed (reg ++ ext).
Proof.
  intros Hreg Hext i info Hi.
  apply lookup_app_Some in Hi as [Hi|[Hge Hi]].
  - by apply Hreg.
  - apply Hext in Hi. lia.
Qed.

(** C5. A successful [register_rpc] gives the new record the size of the
    registry at the append as its index and puts it at that position; and
    under any sequence of registration calls every record stays at its
    position, so that each record of the registry keeps carrying its own
    position. *)
Theorem registry_append_only :
  (∀ Svc ReqT RespT streaming name cb1 cb2 cb3 srv,
     let r := register_rpc Svc ReqT RespT streaming name cb1 cb2 cb3 srv in
     result r = true →
     ∃ info,
       m_rpc_registry (server_after r) = m_rpc_registry srv ++ [info] ∧
       m_rpc_idx info = length (m_rpc_registry srv) ∧
       m_rpc_registry (server_after r) !! m_rpc_idx info = Some info) ∧
  (∀ cs srv,
     let srv' := server_after (sequence registration_call cs srv) in
     (∀ i info, m_rpc_registry srv !! i = Some info →
                m_rpc_registry srv' !! i = Some info) ∧
     (registry_indexed (m_rpc_registry srv) →
      registry_indexed (m_rpc_registry srv'))).
Proof.
  split.
  - intros Svc ReqT RespT streaming name cb1 cb2 cb3 srv r. subst r.
    rewrite register_rpc_run.
    destruct (m_services srv !! service_full_name Svc) as [svc|];
      unfold result, server_after; simpl; [intros _|discriminate].
    eexists. split_and!; [reflexivity|reflexivity|]. simpl.
    rewrite lookup_app_r by done. by rewrite Nat.sub_diag.
  - induction cs as [|c cs IH]; intros srv srv'; subst srv'.
    + unfold server_after; simpl. done.
    + rewrite sequence_cons. unfold server_after at 1 3; simpl.
      destruct (registration_call_extends c srv) as (ext & Hext & Hidx).
      destruct (IH (server_after (registration_call c srv))) as [Hkeep Hinv].
      split.
      * intros i info Hi. apply Hkeep. rewrite Hext.
        by apply lookup_app_l_Some.
      * intros Hreg. apply Hinv. rewrite Hext.
        by apply registry_indexed_app.
Qed.

Lemma registry_append_only_witness :
  registry_indexed (m_rpc_registry (server_after
    (sequence registration_call
       [CallRegisterRpc Greeter "HelloRequest" "HelloReply" false "SayHello"
          (Some 1) (Some 2) None;
        CallRegisterService Echo;
        CallRegisterRpc Greeter "HelloRequest" "HelloReply" false "SayHelloAgain"
          (Some 3) (Some 4) (Some 5)]
       server_running))).
Proof.
  refine (proj2 (proj2 registry_append_only _ server_running) _).
  intros i info Hi. simpl in Hi. by rewrite lookup_nil in Hi.
Defined.

(** The states of a run start with the state of the server and never go
    below it. *)
Lemma lifecycle_step_advances op srv srv' :
  lifecycle_step op srv = Some srv' →
  stays_or_advances (m_state srv) (m_state srv').
Proof.
  unfold lifecycle_step, stays_or_advances.
  destruct op, (m_state srv) eqn:Hst; intros Hstep; try discriminate;
    injection Hstep as <-; simpl; rewrite ?Hst; auto.
Qed.

Lemma stays_or_advances_value a b :
  stays_or_advances a b → (ServerState_value a ≤ ServerState_value b)%Z.
Proof.
  intros [->|Hnext]; [lia|].
  destruct a; simpl in Hnext; try discriminate; injection Hnext as <-; simpl; lia.
Qed.

Lemma lifecycle_states_from ops :
  ∀ srv sts, lifecycle_states ops srv = Some sts →
    ∃ rest, sts = m_state srv :: rest ∧ chain sts ∧
            Forall (λ b, (ServerState_value (m_state srv) ≤ ServerState_value b)%Z) sts.
Proof.
  induction ops as [|op ops IH]; intros srv sts Hsts; simpl in Hsts.
  - injection Hsts as <-. exists []. split_and!; [done|done|].
    constructor; [lia|constructor].
  - destruct (lifecycle_step op srv) as [srv'|] eqn:Hstep; [|discriminate].
    destruct (lifecycle_states ops srv') as [sts'|] eqn:Hrest; [|discriminate].
    injection Hsts as <-.
    destruct (IH _ _ Hrest) as (rest & -> & Hchain & Hall).
    apply lifecycle_step_advances in Hstep.
    exists (m_state srv' :: rest). split_and!; [done|by split|].
    constructor; [lia|].
    apply stays_or_advances_value in Hstep.
    eapply Forall_impl; [exact Hall|]. simpl. intros b Hb. lia.
Qed.

(** C6. Every lifecycle operation leaves the state where it is or moves
    it one place forward along VOID, INITED, RUNNING, SHUTTING_DOWN,
    TERMINATED; over a sequence of operations the state never goes back;
    the registration functions do not write the state. *)
Theorem server_state_only_advances :
  (∀ op srv srv', lifecycle_step op srv = Some srv' →
     stays_or_advances (m_state srv) (m_state srv')) ∧
  (∀ ops srv sts, lifecycle_states ops srv = Some sts →
     chain sts ∧
     ∀ i j a b, i ≤ j → sts !! i = Some a → sts !! j = Some b →
       (ServerState_value a ≤ ServerState_value b)%Z) ∧
  (∀ c srv, m_state (server_after (registration_call c srv)) = m_state srv).
Proof.
  split_and!.
  - apply lifecycle_step_advances.
  - induction ops as [|op ops IH]; intros srv sts Hsts.
    + simpl in Hsts. injection Hsts as <-. split; [done|].
      intros [|i] [|j] a b Hij Ha Hb; simpl in *; try done.
      injection Ha as <-. injection Hb as <-. lia.
    + destruct (lifecycle_states_from _ _ _ Hsts) as (rest & -> & Hchain & Hall).
      split; [done|].
      simpl in Hsts.
      destruct (lifecycle_step op srv) as [srv'|]; [|discriminate].
      destruct (lifecycle_states ops srv') as [sts'|] eqn:Hrest; [|discriminate].
      injection Hsts as <-.
      destruct (IH _ _ Hrest) as [_ Hmono].
      intros [|i] [|j] a b Hij Ha Hb; simpl in *.
      * injection Ha as <-. injection Hb as <-. lia.
      * injection Ha as <-. apply Forall_cons in Hall as [_ Hall].
        rewrite Forall_forall in Hall. apply Hall.
        by eapply list_elem_of_lookup_2.
      * lia.
      * eapply (Hmono i j); [lia|done..].
  - intros [Svc|Svc ReqT RespT streaming name cb1 cb2 cb3] srv; simpl.
    + rewrite register_async_service_run.
      destruct (m_services srv !! service_full_name Svc); reflexivity.
    + rewrite register_rpc_run.
      destruct (m_services srv !! service_full_name Svc); reflexivity.
Qed.

Lemma server_state_only_advances_witness :
  lifecycle_states [Construct 2; Run; Shutdown; Shutdown; ThreadsJoined; Shutdown]
    GrpcServer_members
  = Some [VOID; INITED; RUNNING; SHUTTING_DOWN; SHUTTING_DOWN; TERMINATED; TERMINATED] ∧
  chain [VOID; INITED; RUNNING; SHUTTING_DOWN; SHUTTING_DOWN; TERMINATED; TERMINATED].
Proof.
  split; [reflexivity|].
  refine (proj1 (proj1 (proj2 server_state_only_advances)
    [Construct 2; Run; Shutdown; Shutdown; ThreadsJoined; Shutdown]
    GrpcServer_members _ _)).
  reflexivity.
Defined.

(** C8. The service map is keyed by the address [service_full_name()]
    returns: once a service is registered, registering any service whose
    name is at the same address fails, the same service type in particular;
    two service types whose names are the same characters at different
    addresses, neither in the map, both register. *)
Theorem services_keyed_by_name_address :
  (∀ A B srv,
     service_full_name A = service_full_name B →
     result (register_async_service B
               (server_after (register_async_service A srv))) = false) ∧
  (∀ A B srv,
     service_name_chars A = service_name_chars B →
     service_full_name A ≠ service_full_name B →
     m_services srv !! service_full_name A = None →
     m_services srv !! service_full_name B = None →
     result (register_async_service A srv) = true ∧
     result (register_async_service B
               (server_after (register_async_service A srv))) = true).
Proof.
  split.
  - intros A B srv Haddr.
    rewrite (register_async_service_run A).
    destruct (m_services srv !! service_full_name A) as [svc|] eqn:HA;
      unfold server_after at 1; simpl;
      rewrite register_async_service_run; simpl; rewrite <- Haddr.
    + by rewrite HA.
    + by rewrite lookup_insert_eq.
  - intros A B srv _ Hne HA HB.
    rewrite (register_async_service_run A), HA.
    unfold result at 1, server_after at 1; simpl. split; [done|].
    rewrite register_async_service_run; simpl.
    rewrite lookup_insert_ne by done. by rewrite HB.
Qed.

Lemma services_keyed_by_name_address_witness :
  result (register_async_service Greeter
            (server_after (register_async_service Greeter server_inited))) = false ∧
  result (register_async_service Greeter_twin
            (server_after (register_async_service Greeter server_inited))) = true.
Proof.
  split.
  - refine (proj1 services_keyed_by_name_address Greeter Greeter server_inited _).
    reflexivity.
  - refine (proj2 (proj2 services_keyed_by_name_address
              Greeter Greeter_twin server_inited _ _ _ _)).
    + reflexivity.
    + discriminate.
    + reflexivity.
    + reflexivity.
Defined.

End GrpcServerProofs.

(** * Properties of the Call Lifecycle Object *)

Module CallLifecycleProofs.

Import grpc_helper.

Lemma idle_listening w : w_in_handler w = None → listening_while_handling w.
Proof. intros Hidle method Hin. congruence. Qed.

Ltac idle := apply idle_listening; reflexivity || assumption.

Ltac each_state :=
  repeat (first [apply List.Forall_nil | apply List.Forall_cons]); try idle.

(** Between two events the thread is inside no handler; within an event
    it is inside one only right after it armed the replacement. *)
Lemma event_keeps_listening has_comp_cb ev w :
  w_in_handler w = None →
  Forall listening_while_handling (run_steps (event_steps has_comp_cb ev w) w) ∧
  w_in_handler (after_steps (event_steps has_comp_cb ev w) w) = None.
Proof.
  intros Hidle. destruct ev as [slot ok|slot|method]; simpl.
  - destruct (w_slots w !! slot) as [obj|]; [|by split].
    unfold advance.
    destruct (call_state obj), ok; simpl;
      try destruct (has_comp_cb (m_rpc_info obj)); simpl;
      (split; [each_state|done]).
    all: intros method [= <-]; simpl.
    all: exists (RpcData_make false (m_rpc_info obj) (w_queue w)).
    all: split_and!; try done; apply elem_of_app; right; by left.
  - unfold handler_finished.
    destruct (w_slots w !! slot) as [obj|]; [|by split].
    destruct (call_state obj); simpl; (split; [each_state|done]).
  - split; [each_state|done].
Qed.

(** C7. When a call arrives at an object awaiting a call, [advance] arms
    the replacement for the same method right before it enters the handler,
    and enters no handler earlier; and in every state a worker goes through,
    while its thread is inside the handler of a method the queue has an
    object of that method awaiting a call. *)
Theorem replacement_armed_before_handler :
  (∀ has_comp_cb slot obj,
     call_state obj = AWAITING_CALL →
     ∃ before after,
       advance has_comp_cb slot obj true
       = before ++ [ArmSlot (m_rpc_info obj); HandlerEnter (m_rpc_info obj)] ++ after ∧
       (∀ method, HandlerEnter method ∉ before) ∧
       (∀ method, ArmSlot method ∉ after)) ∧
  (∀ has_comp_cb evs w,
     w_in_handler w = None →
     Forall listening_while_handling (worker_run has_comp_cb evs w)).
Proof.
  split.
  - intros has_comp_cb slot obj Hst. unfold advance. rewrite Hst.
    exists [SetState slot PROCESSING], [HandlerReturn].
    split_and!; [done|..]; intros method Hin;
      apply list_elem_of_singleton in Hin; discriminate.
  - intros has_comp_cb evs. induction evs as [|ev evs IH]; intros w Hidle; simpl.
    + constructor.
    + destruct (event_keeps_listening has_comp_cb ev w Hidle) as [Hev Hend].
      apply Forall_app. split; [done|]. by apply IH.
Qed.

Lemma replacement_armed_before_handler_witness :
  Forall listening_while_handling
    (worker_run (λ _, true) [Registered 7; Tag 0 true; HandlerFinished 0; Tag 0 true]
       (Worker_start 3)) ∧
  map w_in_handler
    (worker_run (λ _, true) [Registered 7; Tag 0 true; HandlerFinished 0; Tag 0 true]
       (Worker_start 3))
  = [None; None; None; Some 7; None; None; None; None].
Proof.
  split; [|reflexivity].
  refine (proj2 replacement_armed_before_handler (λ _, true)
            [Registered 7; Tag 0 true; HandlerFinished 0; Tag 0 true]
            (Worker_start 3) _).
  reflexivity.
Defined.

End CallLifecycleProofs.

(** * Properties of the free-list allocator *)

Module FreeListProofs.

Import sisl.

Local Open Scope Z_scope.

Lemma wrap_int64_small z : - 2 ^ 63 ≤ z < 2 ^ 63 → wrap_int64 z = z.
Proof. intros Hz. unfold wrap_int64. rewrite Z.mod_small; lia. Qed.

(** [allocate] on an empty list takes the block from the system. *)
Lemma allocate_miss size_needed this mem :
  m_head this = nullptr →
  allocate size_needed this mem =
  (sys_brk (sys mem),
   {| m_head := nullptr; m_list_count := wrap_int64 (m_list_count this - 1) |},
   count (add_alloc_size size_needed)
     (count (add_alloc_miss 1)
        {| next_at := next_at mem; sys := (malloc size_needed (sys mem)).2;
           counters := counters mem |})).
Proof.
  intros Hhead. unfold allocate. rewrite decide_True by done.
  simpl. rewrite Hhead. reflexivity.
Qed.

(** [allocate] on a list that is not empty takes its head. *)
Lemma allocate_hit size_needed this mem :
  m_head this ≠ nullptr →
  allocate size_needed this mem =
  (m_head this,
   {| m_head := next_at mem !!! m_head this;
      m_list_count := wrap_int64 (m_list_count this - 1) |},
   count (add_alloc_size size_needed)
     (count (add_cache_size (- size_needed)) (count (add_alloc_hit 1) mem))).
Proof. intros Hhead. unfold allocate. rewrite decide_False by done. reflexivity. Qed.

(** [deallocate] of a block that is not null and has the right size, while
    the counter is not at its maximum, returns and puts the block at the
    head of the list. *)
Lemma deallocate_cached MaxListCount Size ptr this mem :
  ptr ≠ nullptr →
  m_list_count this ≠ MaxListCount →
  deallocate MaxListCount Size ptr Size this mem =
  Some (true,
        {| m_head := ptr; m_list_count := wrap_int64 (m_list_count this + 1) |},
        {| next_at := <[ptr := m_head this]> (next_at mem); sys := sys mem;
           counters := add_cache_size Size (add_alloc_size (- Size) (counters mem)) |}).
Proof.
  intros Hnull Hcount. unfold deallocate. rewrite decide_False.
  - rewrite decide_False by done. reflexivity.
  - intros [Hsize|Hfull]; [by apply Hsize|by apply Hcount].
Qed.

(** Writing the [next] field of a block that is not in the list leaves the
    list as it is. *)
Lemma is_free_list_insert next hdr l p v :
  p ∉ l → is_free_list next hdr l → is_free_list (<[p := v]> next) hdr l.
Proof.
  intros Hp Hl. induction Hl as [|hdr l Hnull Hl IH].
  - constructor.
  - apply not_elem_of_cons in Hp as [Hne Hp].
    constructor; [done|]. rewrite lookup_total_insert_ne by done. by apply IH.
Qed.

Lemma calls_cons MaxListCount Size c cs st :
  calls MaxListCount Size (c :: cs) st
  = match call MaxListCount Size c st with
    | Some st' => calls MaxListCount Size cs st'
    | None => None
    end.
Proof. reflexivity. Qed.

Lemma calls_app MaxListCount Size cs1 cs2 st :
  calls MaxListCount Size (cs1 ++ cs2) st
  = match calls MaxListCount Size cs1 st with
    | Some st' => calls MaxListCount Size cs2 st'
    | None => None
    end.
Proof.
  revert st. induction cs1 as [|c cs1 IH]; intros st; [done|].
  simpl. destruct (call MaxListCount Size c st); [apply IH|done].
Qed.

(** [allocate] always returns. *)
Lemma call_allocate MaxListCount Size size_needed this mem :
  call MaxListCount Size (CallAllocate size_needed) (this, mem)
  = Some ((allocate size_needed this mem).1.2, (allocate size_needed this mem).2).
Proof.
  unfold call; cbn [fst snd].
  by destruct (allocate size_needed this mem) as [[p this'] mem'].
Qed.

(** What a returning [deallocate] leaves, as a call. *)
Lemma call_deallocate MaxListCount Size ptr size_alloced this mem r :
  deallocate MaxListCount Size ptr size_alloced this mem = Some r →
  call MaxListCount Size (CallDeallocate ptr size_alloced) (this, mem)
  = Some (r.1.2, r.2).
Proof.
  intros Hr. unfold call; cbn [fst snd]. rewrite Hr.
  by destruct r as [[b this'] mem'].
Qed.

(** [n] allocations on an empty list: the list stays empty, the counter
    goes down by [n], and the system has handed out [n] blocks in a row. *)
Lemma allocations_on_empty_list MaxListCount Size (n : nat) :
  0 < Size →
  ∀ this mem,
    m_head this = nullptr →
    - 2 ^ 63 ≤ m_list_count this - Z.of_nat n →
    m_list_count this < 2 ^ 63 →
    ∃ st,
      calls MaxListCount Size (replicate n (CallAllocate Size)) (this, mem) = Some st ∧
      m_head st.1 = nullptr ∧
      m_list_count st.1 = m_list_count this - Z.of_nat n ∧
      next_at st.2 = next_at mem ∧
      (∀ p, p ∈ block_addresses Size (sys_brk (sys mem)) n → p ∈ sys_live (sys st.2)) ∧
      (∀ p, p ∈ sys_live (sys mem) → p ∈ sys_live (sys st.2)).
Proof.
  intros HSize. induction n as [|n IH]; intros this mem Hhead Hlo Hhi.
  - exists (this, mem). simpl. split_and!; try done; [lia|].
    intros p Hp. by apply elem_of_nil in Hp.
  - change (replicate (S n) (CallAllocate Size))
      with (CallAllocate Size :: replicate n (CallAllocate Size)).
    rewrite calls_cons, call_allocate.
    rewrite allocate_miss by done. cbn [fst snd].
    rewrite wrap_int64_small by lia.
    match goal with |- context [calls _ _ _ (?t, ?m)] =>
      set (this1 := t); set (mem1 := m) end.
    destruct (IH this1 mem1) as (st & Hst & H1 & H2 & H3 & H4 & H5).
    { done. }
    { unfold this1; cbn [m_list_count]. lia. }
    { unfold this1; cbn [m_list_count]. lia. }
    exists st. split_and!; [done|done| |done| |].
    + rewrite H2. unfold this1; cbn [m_list_count]. lia.
    + intros p Hp. unfold block_addresses in Hp. cbn [seq map] in Hp.
      apply elem_of_cons in Hp as [->|Hp].
      * apply H5. unfold mem1, count, malloc; cbn.
        apply elem_of_union. left. apply elem_of_singleton. lia.
      * apply H4. unfold mem1, count, malloc; cbn. unfold block_addresses.
        apply list_elem_of_fmap in Hp as (k & -> & Hk).
        apply elem_of_seq in Hk.
        apply list_elem_of_fmap. exists (k - 1)%nat. split.
        { rewrite Nat2Z.inj_sub by lia. rewrite Z.max_l by lia. simpl Z.of_nat. ring. }
        apply elem_of_seq. lia.
    + intros p Hp. apply H5. unfold mem1, count, malloc; cbn.
      apply elem_of_union. by right.
Qed.

(** Giving back blocks that are not in the list while the counter is
    negative puts every one of them on the list, the last one first. *)
Lemma deallocations_all_cached MaxListCount Size (ps : list Z) :
  0 ≤ MaxListCount →
  ∀ this mem l,
    is_free_list (next_at mem) (m_head this) l →
    NoDup ps →
    (∀ p, p ∈ ps → p ≠ nullptr ∧ p ∉ l) →
    - 2 ^ 63 ≤ m_list_count this →
    m_list_count this + Z.of_nat (length ps) ≤ 0 →
    ∃ st,
      calls MaxListCount Size (map (λ p, CallDeallocate p Size) ps) (this, mem) = Some st ∧
      is_free_list (next_at st.2) (m_head st.1) (reverse ps ++ l) ∧
      m_list_count st.1 = m_list_count this + Z.of_nat (length ps) ∧
      sys st.2 = sys mem.
Proof.
  intros HMax. induction ps as [|p ps IH]; intros this mem l Hl Hnd Hps Hlo Hhi.
  - exists (this, mem). simpl. split_and!; [done|done|lia|done].
  - simpl map. rewrite calls_cons.
    simpl length in Hhi.
    apply NoDup_cons in Hnd as [Hp Hnd].
    destruct (Hps p) as [Hnull Hfresh]; [by left|].
    rewrite (call_deallocate _ _ _ _ _ _ _
               (deallocate_cached MaxListCount Size p this mem Hnull ltac:(lia))).
    cbn [fst snd].
    rewrite wrap_int64_small by lia.
    match goal with |- context [calls _ _ _ (?t, ?m)] =>
      set (this1 := t); set (mem1 := m)
    end.
    destruct (IH this1 mem1 (p :: l)) as (st & Hst & H1 & H2 & H3).
    + unfold this1, mem1; cbn [m_head next_at].
      constructor; [done|]. rewrite lookup_total_insert_eq.
      by apply is_free_list_insert.
    + done.
    + intros q Hq. destruct (Hps q) as [Hqnull Hqfresh]; [by right|].
      split; [done|]. apply not_elem_of_cons. split; [|done].
      intros ->. done.
    + unfold this1; cbn [m_list_count]. lia.
    + unfold this1; cbn [m_list_count]. lia.
    + exists st. rewrite reverse_cons, <- app_assoc. cbn [app].
      split_and!; [done|done| |done].
      rewrite H2. unfold this1; cbn [m_list_count length]. lia.
Qed.

Lemma block_addresses_NoDup Size base n : 0 < Size → NoDup (block_addresses Size base n).
Proof.
  intros HSize. unfold block_addresses.
  apply (NoDup_fmap_2_strong (λ k, base + Z.of_nat k * Size)); [|apply NoDup_seq].
  intros j k _ _ Heq. nia.
Qed.

Lemma block_addresses_positive Size base n p :
  0 < Size → 0 < base → p ∈ block_addresses Size base n → 0 < p.
Proof.
  intros HSize Hbase Hp. unfold block_addresses in Hp.
  apply list_elem_of_fmap in Hp as (k & -> & _). nia.
Qed.

Lemma block_addresses_length Size base n : length (block_addresses Size base n) = n.
Proof. unfold block_addresses. by rewrite length_map, length_seq. Qed.

(** C9, as the claim has it, fails: given a null pointer with the size
    [Size] while the counter differs from [MaxListCount], [deallocate]
    stores through the null pointer; it does not return true. *)
Lemma deallocate_null_block_does_not_return :
  ¬ ∃ r, deallocate 2 64 nullptr 64 FreeListAllocatorImpl_new (Memory_start 4096)
         = Some r ∧ r.1.1 = true.
Proof. intros (r & Hr & _). vm_compute in Hr. discriminate Hr. Qed.

(** C9, amended.  For a size, a counter and template parameters the types
    of the source hold: [deallocate] returns true for every input but a null
    pointer it would cache.  It puts the block at the head of the free list
    exactly when the size given is [Size] and the counter differs from
    [MaxListCount] (the block not being null); otherwise, null pointer or
    not, the list and the counter are left alone and the block goes back to
    the system at once.  [allocate] on a list that is not empty returns its
    head, so right after a block was cached it returns that block. *)
Theorem deallocate_caches_or_releases MaxListCount Size :
  is_uint16 MaxListCount → is_size_t Size →
  (∀ ptr size_alloced this mem,
     is_uint32 size_alloced → is_int64 (m_list_count this) →
     let r := deallocate MaxListCount Size ptr size_alloced this mem in
     if decide (size_alloced = Size ∧ m_list_count this ≠ MaxListCount) then
       ptr ≠ nullptr →
       ∃ this' mem',
         r = Some (true, this', mem') ∧
         m_head this' = ptr ∧
         next_at mem' !!! ptr = m_head this ∧
         (∀ p, p ≠ ptr → next_at mem' !! p = next_at mem !! p) ∧
         m_list_count this' = wrap_int64 (m_list_count this + 1) ∧
         sys mem' = sys mem
     else
       ∃ mem',
         r = Some (true, this, mem') ∧
         next_at mem' = next_at mem ∧
         sys mem' = free ptr (sys mem) ∧
         ptr ∉ sys_live (sys mem')) ∧
  (∀ size_needed this mem,
     is_uint32 size_needed →
     m_head this ≠ nullptr →
     let r := allocate size_needed this mem in
     r.1.1 = m_head this ∧
     m_head r.1.2 = next_at mem !!! m_head this ∧
     sys r.2 = sys mem) ∧
  (∀ ptr size_needed this mem,
     is_uint32 size_needed →
     ptr ≠ nullptr →
     m_list_count this ≠ MaxListCount →
     ∃ this1 mem1,
       deallocate MaxListCount Size ptr Size this mem = Some (true, this1, mem1) ∧
       let r2 := allocate size_needed this1 mem1 in
       r2.1.1 = ptr ∧ m_head r2.1.2 = m_head this).
Proof.
  intros _ _. split_and!.
  - intros ptr size_alloced this mem _ _ r. subst r. unfold deallocate.
    destruct (decide (size_alloced ≠ Size ∨ m_list_count this = MaxListCount))
      as [Hout|Hin];
      destruct (decide (size_alloced = Size ∧ m_list_count this ≠ MaxListCount))
      as [[Hsize Hcount]|Hnot].
    + exfalso. destruct Hout; done.
    + eexists. split; [reflexivity|].
      destruct (decide (size_alloced ≠ Size)); simpl; split_and!; try done.
      all: apply not_elem_of_difference; right; by apply elem_of_singleton.
    + intros Hnull. rewrite decide_False by done.
      eexists _, _. split; [reflexivity|].
      cbn [m_head m_list_count next_at sys]. split_and!; try done.
      * by rewrite lookup_total_insert_eq.
      * intros p Hp. by rewrite lookup_insert_ne.
    + exfalso. apply Hnot. split.
      * destruct (decide (size_alloced = Size)); [done|]. exfalso. apply Hin. by left.
      * intros Heq. apply Hin. by right.
  - intros size_needed this mem _ Hhead r. subst r.
    rewrite allocate_hit by done. done.
  - intros ptr size_needed this mem _ Hptr Hcount.
    rewrite deallocate_cached by done.
    eexists _, _. split; [reflexivity|]. intros r2. subst r2.
    rewrite allocate_hit by done. cbn [fst snd m_head next_at].
    by rewrite lookup_total_insert_eq.
Qed.

Lemma deallocate_caches_or_releases_witness :
  (allocate 64 {| m_head := 4096; m_list_count := 1 |}
     {| next_at := {[ 4096 := 8192 ]}; sys := sys (Memory_start 16384);
        counters := counters (Memory_start 16384) |}).1.1 = 4096 ∧
  ∃ this1 mem1,
    deallocate 2 64 12288 64 {| m_head := 4096; m_list_count := 1 |}
      (Memory_start 16384) = Some (true, this1, mem1) ∧
    (allocate 64 this1 mem1).1.1 = 12288.
Proof.
  assert (is_uint16 2) as H16 by (unfold is_uint16; lia).
  assert (is_size_t 64) as Hsz by (unfold is_size_t; lia).
  assert (is_uint32 64) as H32 by (unfold is_uint32; lia).
  split.
  - refine (proj1 (proj1 (proj2 (deallocate_caches_or_releases 2 64 H16 Hsz)) 64
              {| m_head := 4096; m_list_count := 1 |} _ H32 _)).
    discriminate.
  - destruct (proj2 (proj2 (deallocate_caches_or_releases 2 64 H16 Hsz)) 12288 64
                {| m_head := 4096; m_list_count := 1 |} (Memory_start 16384) H32)
      as (this1 & mem1 & Hd & Ha & _).
    + discriminate.
    + discriminate.
    + exists this1, mem1. split; [exact Hd|exact Ha].
Defined.

(** C10. [allocate] takes one off the counter on every call, also when the
    list is empty and the block comes from the system: on a new allocator
    one call leaves the counter at -1 with no block on the list.  And for
    every [MaxListCount] there are calls after which the list holds
    [MaxListCount + 1] blocks, all handed out by the system and not given
    back to it, while the counter says 0: take that many blocks, then return
    them. *)
Theorem allocate_always_decrements MaxListCount Size :
  (∀ size_needed this mem,
     m_list_count (allocate size_needed this mem).1.2
     = wrap_int64 (m_list_count this - 1)) ∧
  (∀ size_needed mem,
     let r := allocate size_needed FreeListAllocatorImpl_new mem in
     m_list_count r.1.2 = -1 ∧ is_free_list (next_at r.2) (m_head r.1.2) []) ∧
  (0 ≤ MaxListCount < 2 ^ 16 → 0 < Size < 2 ^ 32 →
   ∀ base, 0 < base →
     let n := S (Z.to_nat MaxListCount) in
     ∃ st l,
       calls MaxListCount Size (take_and_give_back Size base n)
         (FreeListAllocatorImpl_new, Memory_start base) = Some st ∧
       is_free_list (next_at st.2) (m_head st.1) l ∧
       Z.of_nat (length l) = MaxListCount + 1 ∧
       (∀ p, p ∈ l → p ∈ sys_live (sys st.2)) ∧
       m_list_count st.1 = 0).
Proof.
  split_and!.
  - intros size_needed this mem. unfold allocate.
    destruct (decide (m_head this = nullptr)); reflexivity.
  - intros size_needed mem r. subst r.
    rewrite allocate_miss by done. cbn [fst snd m_list_count m_head next_at].
    split; [reflexivity|constructor].
  - intros HMax HSize base Hbase n.
    unfold take_and_give_back. rewrite calls_app.
    destruct (allocations_on_empty_list MaxListCount Size n ltac:(lia)
                FreeListAllocatorImpl_new (Memory_start base))
      as (st1 & -> & Ha1 & Ha2 & Ha3 & Ha4 & _).
    { done. }
    { cbn [m_list_count FreeListAllocatorImpl_new]. subst n. lia. }
    { cbn [m_list_count FreeListAllocatorImpl_new]. lia. }
    replace st1 with (st1.1, st1.2) by (by destruct st1).
    destruct (deallocations_all_cached MaxListCount Size
                (block_addresses Size base n) ltac:(lia) st1.1 st1.2 [])
      as (st & -> & Hd1 & Hd2 & Hd3).
    { rewrite Ha1. constructor. }
    { apply block_addresses_NoDup. lia. }
    { intros p Hp. split; [|apply not_elem_of_nil].
      apply block_addresses_positive in Hp; [|lia..]. unfold nullptr. lia. }
    { rewrite Ha2. cbn [m_list_count FreeListAllocatorImpl_new]. subst n. lia. }
    { rewrite Ha2, block_addresses_length.
      cbn [m_list_count FreeListAllocatorImpl_new]. lia. }
    rewrite app_nil_r in Hd1.
    exists st, (reverse (block_addresses Size base n)).
    split_and!.
    + reflexivity.
    + exact Hd1.
    + rewrite length_reverse, block_addresses_length. subst n. lia.
    + intros p Hp. rewrite elem_of_reverse in Hp. rewrite Hd3. apply Ha4. exact Hp.
    + rewrite Hd2, Ha2, block_addresses_length.
      cbn [m_list_count FreeListAllocatorImpl_new]. lia.
Qed.

Lemma allocate_always_decrements_witness :
  ∃ st l,
    calls 2 64 (take_and_give_back 64 4096 3)
      (FreeListAllocatorImpl_new, Memory_start 4096) = Some st ∧
    is_free_list (next_at st.2) (m_head st.1) l ∧
    Z.of_nat (length l) = 2 + 1.
Proof.
  destruct (proj2 (proj2 (allocate_always_decrements 2 64))
              ltac:(lia) ltac:(lia) 4096 ltac:(lia)) as (st & l & Hst & Hl & Hlen & _).
  exists st, l. split_and!; [exact Hst|exact Hl|exact Hlen].
Defined.

(** The same run, computed: three blocks on a list made for two. *)
Example free_list_over_capacity :
  ∃ st,
    calls 2 64 (take_and_give_back 64 4096 3)
      (FreeListAllocatorImpl_new, Memory_start 4096) = Some st ∧
    free_list_nodes 10 (next_at st.2) (m_head st.1) = [4224; 4160; 4096] ∧
    m_list_count st.1 = 0.
Proof. eexists. split; [vm_compute; reflexivity|]. vm_compute. done. Qed.

End FreeListProofs.

(** * Further properties of the server registry *)

Module GrpcServerExtra.

Import grpc_helper.
Import GrpcServerProofs.

(** What the loop of [register_rpc] leaves on a queue, read backwards. *)
Lemma armed_lookup_inv rpc_idx (cqs : list (list RpcData)) q cq' :
  armed rpc_idx 0 (length cqs) cqs !! q = Some cq' →
  ∃ cq, cqs !! q = Some cq ∧ cq' = cq ++ [RpcData_make false rpc_idx q].
Proof.
  intros Hq'. destruct (cqs !! q) as [cq|] eqn:Hq.
  - exists cq. split; [done|].
    rewrite (armed_lookup _ _ _ _ Hq) in Hq'. by injection Hq' as <-.
  - apply lookup_lt_Some in Hq'. rewrite armed_length in Hq'.
    apply lookup_ge_None in Hq. lia.
Qed.

(** A property every registration call keeps is kept by every sequence of
    them. *)
Lemma sequence_keeps (P : GrpcServer → Prop) :
  (∀ c srv, P srv → P (server_after (registration_call c srv))) →
  ∀ cs srv, P srv → P (server_after (sequence registration_call cs srv)).
Proof.
  intros Hstep. induction cs as [|c cs IH]; intros srv HP.
  - exact HP.
  - rewrite sequence_cons. unfold server_after at 1; simpl.
    apply IH. by apply Hstep.
Qed.

(** X1. Registering a service whose name is not in the map returns true,
    stores the new service object under the address of the name, gives it to
    the builder, and leaves every other entry of the map alone: the map has
    one entry more. *)
Theorem register_async_service_inserts Svc srv :
  m_services srv !! service_full_name Svc = None →
  let r := register_async_service Svc srv in
  result r = true ∧
  m_services (server_after r) !! service_full_name Svc = Some {| svc_type := Svc |} ∧
  (∀ k, k ≠ service_full_name Svc →
        m_services (server_after r) !! k = m_services srv !! k) ∧
  m_builder (server_after r) = m_builder srv ++ [{| svc_type := Svc |}] ∧
  size (m_services (server_after r)) = S (size (m_services srv)).
Proof.
  intros Hnone r. subst r. rewrite register_async_service_run, Hnone.
  unfold result, server_after; simpl. split_and!.
  - done.
  - by rewrite lookup_insert_eq.
  - intros k Hk. by rewrite lookup_insert_ne.
  - done.
  - by apply map_size_insert_None.
Qed.

Lemma register_async_service_inserts_witness :
  m_services (server_after (register_async_service Echo server_running))
    !! service_full_name Echo = Some {| svc_type := Echo |}.
Proof.
  refine (proj1 (proj2 (register_async_service_inserts Echo server_running _))).
  vm_compute. reflexivity.
Defined.

(** X2. After [register_async_service] for a service type, whether that
    call succeeded or found the name taken, [register_rpc] for the same
    type returns true; the record it appends holds the service object the
    map has for that name, the method name and the three callbacks as
    given. *)
Theorem register_rpc_after_register_service
    Svc ReqT RespT streaming name cb1 cb2 cb3 srv :
  let srv1 := server_after (register_async_service Svc srv) in
  let r := register_rpc Svc ReqT RespT streaming name cb1 cb2 cb3 srv1 in
  result r = true ∧
  ∃ info,
    m_rpc_registry (server_after r) = m_rpc_registry srv ++ [info] ∧
    m_services srv1 !! service_full_name Svc = Some (m_svc info) ∧
    m_rpc_name info = name ∧
    m_req_call_cb info = cb1 ∧ m_handler_cb info = cb2 ∧ m_comp_cb info = cb3.
Proof.
  intros srv1 r.
  assert (∃ svc, m_services srv1 !! service_full_name Svc = Some svc ∧
                 m_rpc_registry srv1 = m_rpc_registry srv) as (svc & Hsvc & Hreg).
  { subst srv1. rewrite register_async_service_run.
    destruct (m_services srv !! service_full_name Svc) as [svc|] eqn:Hsvc;
      unfold server_after; simpl.
    - by exists svc.
    - eexists. split; [apply lookup_insert_eq|done]. }
  subst r. rewrite register_rpc_run, Hsvc.
  unfold result, server_after at 1; simpl. rewrite Hreg.
  split; [done|]. eexists. split_and!; [reflexivity|done..].
Qed.

Lemma register_async_service_frame Svc srv :
  let srv' := server_after (register_async_service Svc srv) in
  m_rpc_registry srv' = m_rpc_registry srv ∧ m_cqs srv' = m_cqs srv ∧
  m_threads srv' = m_threads srv ∧ m_num_threads srv' = m_num_threads srv ∧
  m_state srv' = m_state srv.
Proof.
  intros srv'. subst srv'. rewrite register_async_service_run.
  destruct (m_services srv !! service_full_name Svc); done.
Qed.

Lemma register_rpc_frame Svc ReqT RespT streaming name cb1 cb2 cb3 srv :
  let srv' := server_after
                (register_rpc Svc ReqT RespT streaming name cb1 cb2 cb3 srv) in
  m_services srv' = m_services srv ∧ m_builder srv' = m_builder srv ∧
  m_threads srv' = m_threads srv ∧ m_num_threads srv' = m_num_threads srv ∧
  m_state srv' = m_state srv.
Proof.
  intros srv'. subst srv'. rewrite register_rpc_run.
  destruct (m_services srv !! service_full_name Svc); done.
Qed.

(** X3. [register_async_service] never touches the RPC registry, the
    queues, the threads or the state; [register_rpc] never touches the
    service map, the builder, the threads or the state, keeps the number of
    queues, and only adds to the end of a queue.  Neither changes what
    [is_terminated] answers. *)
Theorem registration_frames :
  (∀ Svc srv,
     let srv' := server_after (register_async_service Svc srv) in
     m_rpc_registry srv' = m_rpc_registry srv ∧ m_cqs srv' = m_cqs srv ∧
     m_threads srv' = m_threads srv ∧ m_num_threads srv' = m_num_threads srv ∧
     m_state srv' = m_state srv ∧
     is_terminated srv' = is_terminated srv) ∧
  (∀ Svc ReqT RespT streaming name cb1 cb2 cb3 srv,
     let srv' := server_after
                   (register_rpc Svc ReqT RespT streaming name cb1 cb2 cb3 srv) in
     m_services srv' = m_services srv ∧ m_builder srv' = m_builder srv ∧
     m_threads srv' = m_threads srv ∧ m_num_threads srv' = m_num_threads srv ∧
     m_state srv' = m_state srv ∧
     is_terminated srv' = is_terminated srv ∧
     length (m_cqs srv') = length (m_cqs srv) ∧
     ∀ q cq, m_cqs srv !! q = Some cq →
       ∃ new, m_cqs srv' !! q = Some (cq ++ new)).
Proof.
  split.
  - intros Svc srv srv'. subst srv'. rewrite register_async_service_run.
    destruct (m_services srv !! service_full_name Svc); done.
  - intros Svc ReqT RespT streaming name cb1 cb2 cb3 srv srv'. subst srv'.
    rewrite register_rpc_run.
    destruct (m_services srv !! service_full_name Svc) as [svc|];
      unfold server_after; simpl.
    + split_and!; try done.
      * apply armed_length.
      * intros q cq Hq. eexists. by apply armed_lookup.
    + split_and!; try done.
      intros q cq Hq. exists []. by rewrite app_nil_r.
Qed.

Lemma register_rpc_keeps_references Svc ReqT RespT streaming name cb1 cb2 cb3 srv :
  calls_refer_to_registry srv →
  calls_refer_to_registry
    (server_after (register_rpc Svc ReqT RespT streaming name cb1 cb2 cb3 srv)).
Proof.
  intros Hinv. rewrite register_rpc_run.
  destruct (m_services srv !! service_full_name Svc) as [svc|];
    unfold server_after; simpl; [|done].
  intros q cq' obj Hq' Hobj. simpl in *.
  apply armed_lookup_inv in Hq' as (cq & Hq & ->).
  rewrite length_app. simpl.
  apply elem_of_app in Hobj as [Hobj|Hobj].
  - destruct (Hinv q cq obj Hq Hobj). split; [lia|done].
  - apply list_elem_of_singleton in Hobj as ->. simpl. split; [lia|done].
Qed.

(** X4. If every call object on the queues points at a record of the
    registry and sits on the queue it names, the same holds after any
    sequence of registration calls: registration never leaves a call object
    without its record. *)
Theorem registration_keeps_references cs srv :
  calls_refer_to_registry srv →
  calls_refer_to_registry (server_after (sequence registration_call cs srv)).
Proof.
  revert cs srv. apply sequence_keeps.
  intros [Svc|Svc ReqT RespT streaming name cb1 cb2 cb3] srv Hinv; simpl.
  - destruct (register_async_service_frame Svc srv) as (Hreg & Hcqs & _).
    intros q cq obj. rewrite Hreg, Hcqs. apply Hinv.
  - by apply register_rpc_keeps_references.
Qed.

Lemma registration_keeps_references_witness :
  calls_refer_to_registry (server_after
    (sequence registration_call
       [CallRegisterRpc Greeter "HelloRequest" "HelloReply" false "SayHello"
          (Some 1) (Some 2) None;
        CallRegisterService Echo;
        CallRegisterRpc Echo "Ping" "Pong" false "Echo" (Some 3) (Some 4) None]
       server_running)).
Proof.
  apply registration_keeps_references.
  intros q cq obj Hq Hobj. simpl in Hq.
  destruct q as [|[|q]]; simpl in Hq; try discriminate;
    injection Hq as <-; by apply elem_of_nil in Hobj.
Defined.

Lemma registration_frames_witness :
  ∃ new,
    m_cqs (server_after
      (register_rpc Greeter "HelloRequest" "HelloReply" false "SayHello"
         (Some 1) (Some 2) None server_running)) !! 1 = Some ([] ++ new).
Proof.
  refine (proj2 (proj2 (proj2 (proj2 (proj2 (proj2 (proj2
    (proj2 registration_frames Greeter "HelloRequest" "HelloReply" false
       "SayHello" (Some 1) (Some 2) None server_running))))))) 1 [] _).
  reflexivity.
Defined.

Lemma one_call_per_method_S n q :
  one_call_per_method (S n) q = one_call_per_method n q ++ [RpcData_make false n q].
Proof. unfold one_call_per_method. rewrite seq_S, map_app. reflexivity. Qed.

(** Among the objects registration posts, those of one method. *)
Lemma awaiting_on_one_call_per_method idx n q :
  awaiting_on idx (one_call_per_method n q)
  = if decide (idx < n) then [RpcData_make false idx q] else [].
Proof.
  induction n as [|n IH].
  - rewrite decide_False by lia. reflexivity.
  - rewrite one_call_per_method_S. unfold awaiting_on in *.
    rewrite filter_app, IH. rewrite filter_cons, filter_nil. simpl.
    destruct (decide (idx < n)), (decide (idx < S n)); try lia.
    + rewrite decide_False by (intros [? _]; lia). done.
    + assert (idx = n) as -> by lia. rewrite decide_True by done. done.
    + rewrite decide_False by (intros [? _]; lia). done.
Qed.

Lemma register_rpc_keeps_queues_armed Svc ReqT RespT streaming name cb1 cb2 cb3 srv :
  queues_armed srv →
  queues_armed
    (server_after (register_rpc Svc ReqT RespT streaming name cb1 cb2 cb3 srv)).
Proof.
  intros Hinv. rewrite register_rpc_run.
  destruct (m_services srv !! service_full_name Svc) as [svc|];
    unfold server_after; simpl; [|done].
  intros q cq' Hq'. simpl in *.
  apply armed_lookup_inv in Hq' as (cq & Hq & ->).
  rewrite length_app, Nat.add_1_r, one_call_per_method_S.
  by rewrite (Hinv q cq Hq).
Qed.

(** X5. On a server whose queues hold what registration posts and nothing
    else (an empty registry with empty queues, to begin with), any sequence
    of registration calls leaves on every queue, for every registered
    method, exactly one call object awaiting a call, and none for an index
    the registry does not have. *)
Theorem registration_arms_every_method_once cs srv :
  queues_armed srv →
  let srv' := server_after (sequence registration_call cs srv) in
  queues_armed srv' ∧
  ∀ q cq idx, m_cqs srv' !! q = Some cq →
    awaiting_on idx cq
    = if decide (idx < length (m_rpc_registry srv'))
      then [RpcData_make false idx q] else [].
Proof.
  intros Hinv srv'.
  assert (queues_armed srv') as Hinv'.
  { subst srv'. revert cs srv Hinv. apply sequence_keeps.
    intros [Svc|Svc ReqT RespT streaming name cb1 cb2 cb3] srv Hinv; simpl.
    - destruct (register_async_service_frame Svc srv) as (Hreg & Hcqs & _).
      intros q cq. rewrite Hreg, Hcqs. apply Hinv.
    - by apply register_rpc_keeps_queues_armed. }
  split; [done|].
  intros q cq idx Hq. rewrite (Hinv' q cq Hq).
  apply awaiting_on_one_call_per_method.
Qed.

Lemma registration_arms_every_method_once_witness :
  awaiting_on 1 [RpcData_make false 0 1; RpcData_make false 1 1]
  = [RpcData_make false 1 1].
Proof.
  refine (proj2 (registration_arms_every_method_once
    [CallRegisterRpc Greeter "HelloRequest" "HelloReply" false "SayHello"
       (Some 1) (Some 2) None;
     CallRegisterService Echo;
     CallRegisterRpc Echo "Ping" "Pong" false "Echo" (Some 3) (Some 4) None]
    server_running _) 1 [RpcData_make false 0 1; RpcData_make false 1 1] 1 _).
  - intros q cq Hq. simpl in Hq.
    destruct q as [|[|q]]; simpl in Hq; try discriminate;
      injection Hq as <-; reflexivity.
  - vm_compute. reflexivity.
Defined.

Lemma lock_discipline_app held t1 t2 :
  lock_discipline held (t1 ++ t2)
  = match lock_discipline held t1 with
    | Some held' => lock_discipline held' t2
    | None => None
    end.
Proof.
  revert held. induction t1 as [|e t1 IH]; intros held; [done|].
  destruct e, held; simpl; auto.
Qed.

Lemma lock_discipline_debug_check held expected msg srv :
  lock_discipline held (debug_check expected msg srv) = Some held.
Proof. unfold debug_check. case_decide; reflexivity. Qed.

Lemma lock_discipline_enqueued rpc_idx qs :
  lock_discipline true (map (CallEnqueued rpc_idx) qs) = Some true.
Proof. induction qs as [|q qs IH]; [done|exact IH]. Qed.

Lemma registration_call_lock_discipline c srv :
  lock_discipline false (trace (registration_call c srv)) = Some false.
Proof.
  destruct c as [Svc|Svc ReqT RespT streaming name cb1 cb2 cb3]; simpl.
  - rewrite register_async_service_run.
    destruct (m_services srv !! service_full_name Svc); unfold trace; simpl.
    + by rewrite lock_discipline_app, lock_discipline_debug_check.
    + apply lock_discipline_debug_check.
  - rewrite register_rpc_run.
    destruct (m_services srv !! service_full_name Svc); unfold trace; simpl.
    + rewrite lock_discipline_app, lock_discipline_debug_check. simpl.
      by rewrite lock_discipline_app, lock_discipline_enqueued.
    + by rewrite lock_discipline_app, lock_discipline_debug_check.
Qed.

(** X6. In the trace of any sequence of registration calls the registry
    lock is taken only when free and released only when held, every append
    to the registry and every post to a queue happens while it is held, and
    it is free at the end. *)
Theorem registration_lock_discipline cs srv :
  lock_discipline false (trace (sequence registration_call cs srv)) = Some false.
Proof.
  revert srv. induction cs as [|c cs IH]; intros srv; [done|].
  rewrite sequence_cons. unfold trace at 1; simpl.
  rewrite lock_discipline_app, registration_call_lock_discipline. apply IH.
Qed.

(** X7. If every service of the map was given to the builder and is
    stored under the address of its own name, the same holds after any
    sequence of registration calls. *)
Theorem registration_keeps_services_known cs srv :
  services_known_to_builder srv →
  services_known_to_builder (server_after (sequence registration_call cs srv)).
Proof.
  revert cs srv. apply sequence_keeps.
  intros [Svc|Svc ReqT RespT streaming name cb1 cb2 cb3] srv Hinv; simpl.
  - rewrite register_async_service_run.
    destruct (m_services srv !! service_full_name Svc) as [svc|] eqn:Hsvc;
      unfold server_after; simpl; [done|].
    intros k svc Hk. simpl in *.
    destruct (decide (service_full_name Svc = k)) as [<-|Hne].
    + rewrite lookup_insert_eq in Hk. injection Hk as <-.
      split; [|done]. apply elem_of_app. right. by left.
    + rewrite lookup_insert_ne in Hk by done.
      destruct (Hinv k svc Hk). split; [|done]. apply elem_of_app. by left.
  - destruct (register_rpc_frame Svc ReqT RespT streaming name cb1 cb2 cb3 srv)
      as (Hsvcs & Hb & _).
    intros k svc. rewrite Hsvcs, Hb. apply Hinv.
Qed.

Lemma registration_keeps_services_known_witness :
  services_known_to_builder (server_after
    (sequence registration_call
       [CallRegisterService Echo; CallRegisterService Greeter;
        CallRegisterService Greeter_twin]
       server_running)).
Proof.
  apply registration_keeps_services_known.
  intros k svc Hk. change (m_services server_running)
    with ({[ 4096%Z := {| svc_type := Greeter |} ]} : gmap Z AsyncService) in Hk.
  apply lookup_singleton_Some in Hk as [<- <-].
  split; [|reflexivity]. by left.
Defined.

(** X16. [register_rpc] does not look at the method names already
    registered: for a registered service, registering the same method name a
    second time returns true as well, appends a second record with that name
    at the next index, and posts a second call object to every queue. *)
Theorem register_rpc_accepts_duplicate_name
    Svc ReqT RespT streaming name cb1 cb2 cb3 cb1' cb2' cb3' srv :
  is_Some (m_services srv !! service_full_name Svc) →
  let r1 := register_rpc Svc ReqT RespT streaming name cb1 cb2 cb3 srv in
  let r2 := register_rpc Svc ReqT RespT streaming name cb1' cb2' cb3'
              (server_after r1) in
  let n := length (m_rpc_registry srv) in
  result r1 = true ∧ result r2 = true ∧
  (∃ info1 info2,
     m_rpc_registry (server_after r2) = m_rpc_registry srv ++ [info1; info2] ∧
     m_rpc_name info1 = name ∧ m_rpc_name info2 = name ∧
     m_rpc_idx info1 = n ∧ m_rpc_idx info2 = S n) ∧
  ∀ q cq, m_cqs srv !! q = Some cq →
    m_cqs (server_after r2) !! q
    = Some (cq ++ [RpcData_make false n q; RpcData_make false (S n) q]).
Proof.
  intros [svc Hsvc] r1 r2 n. subst r2 r1 n.
  rewrite (register_rpc_run _ _ _ _ _ cb1), Hsvc.
  unfold server_after at 1 3 5; simpl.
  rewrite register_rpc_run; simpl. rewrite Hsvc.
  unfold result, server_after; simpl.
  split_and!; [done|done| |].
  - eexists _, _. rewrite <- app_assoc. simpl.
    split_and!; [reflexivity|done|done|done|].
    simpl. rewrite length_app. simpl. lia.
  - intros q cq Hq. rewrite armed_length.
    pose proof (armed_lookup (length (m_rpc_registry srv)) _ _ _ Hq) as Hq1.
    pose proof (armed_lookup (length (m_rpc_registry srv ++
        [{| m_svc := svc; m_req_call_cb := cb1; m_handler_cb := cb2;
            m_comp_cb := cb3; m_rpc_idx := length (m_rpc_registry srv);
            m_rpc_name := name; info_req_t := ReqT; info_resp_t := RespT;
            info_streaming := false |}])) _ _ _ Hq1) as Hq2.
    rewrite armed_length in Hq2. rewrite Hq2.
    rewrite length_app, Nat.add_1_r, <- app_assoc. reflexivity.
Qed.

Lemma register_rpc_accepts_duplicate_name_witness :
  result (register_rpc Greeter "HelloRequest" "HelloReply" false "SayHello"
            (Some 3) (Some 4) None
            (server_after
               (register_rpc Greeter "HelloRequest" "HelloReply" false "SayHello"
                  (Some 1) (Some 2) None server_running))) = true.
Proof.
  refine (proj1 (proj2 (register_rpc_accepts_duplicate_name Greeter
    "HelloRequest" "HelloReply" false "SayHello"
    (Some 1) (Some 2) None (Some 3) (Some 4) None server_running _))).
  vm_compute. eauto.
Defined.

End GrpcServerExtra.



(** * Further properties of the free-list allocator *)

Module FreeListExtra.

Import sisl.
Import FreeListProofs.

Local Open Scope Z_scope.

Lemma is_free_list_nil_inv next hdr : is_free_list next hdr [] → hdr = nullptr.
Proof. intros Hl. by inversion Hl. Qed.

Lemma is_free_list_cons_inv next hdr p l :
  is_free_list next hdr (p :: l) →
  hdr = p ∧ p ≠ nullptr ∧ is_free_list next (next !!! p) l.
Proof. intros Hl. inversion Hl; subst. done. Qed.

(** A call returns unless it is [deallocate] of a null pointer. *)
Lemma call_returns MaxListCount Size c st :
  match c with
  | CallAllocate _ => True
  | CallDeallocate ptr _ => ptr ≠ nullptr
  end →
  is_Some (call MaxListCount Size c st).
Proof.
  destruct st as [this mem]. destruct c as [size_needed|ptr size_alloced]; intros Hc.
  - rewrite call_allocate. eauto.
  - unfold call, deallocate; cbn [fst snd].
    destruct (decide (size_alloced ≠ Size ∨ m_list_count this = MaxListCount));
      [eauto|].
    rewrite decide_False by done. eauto.
Qed.

(** A sequence of calls that gives [deallocate] no null pointer runs to its
    end. *)
Lemma calls_return MaxListCount Size cs :
  no_null_block cs → ∀ st, is_Some (calls MaxListCount Size cs st).
Proof.
  induction cs as [|c cs IH]; intros Hcs st; [simpl; eauto|].
  rewrite calls_cons.
  destruct (call_returns MaxListCount Size c st) as [st' ->].
  - destruct c as [|ptr size_alloced]; [done|]. apply (Hcs ptr size_alloced). by left.
  - apply IH. intros ptr size_alloced Hin. apply (Hcs ptr size_alloced). by right.
Qed.

(** X8. The free list is a stack of blocks.  [deallocate] of a block of
    [Size] bytes that is not null and not on the list, while the counter
    differs from [MaxListCount], returns true and puts it in front of the
    blocks already there; [allocate] on a list that starts with [p] returns
    [p], leaves the rest, and does not go to the system; on an empty list it
    returns what [malloc] gives and the list stays empty. *)
Theorem free_list_is_a_stack MaxListCount Size :
  (∀ ptr this mem l,
     is_free_list (next_at mem) (m_head this) l →
     ptr ≠ nullptr → ptr ∉ l → m_list_count this ≠ MaxListCount →
     ∃ this' mem',
       deallocate MaxListCount Size ptr Size this mem = Some (true, this', mem') ∧
       is_free_list (next_at mem') (m_head this') (ptr :: l)) ∧
  (∀ size_needed this mem p l,
     is_free_list (next_at mem) (m_head this) (p :: l) →
     let r := allocate size_needed this mem in
     r.1.1 = p ∧ is_free_list (next_at r.2) (m_head r.1.2) l ∧ sys r.2 = sys mem) ∧
  (∀ size_needed this mem,
     is_free_list (next_at mem) (m_head this) [] →
     let r := allocate size_needed this mem in
     r.1.1 = (malloc size_needed (sys mem)).1 ∧
     is_free_list (next_at r.2) (m_head r.1.2) [] ∧
     sys r.2 = (malloc size_needed (sys mem)).2).
Proof.
  split_and!.
  - intros ptr this mem l Hl Hnull Hfresh Hcount.
    rewrite deallocate_cached by done.
    eexists _, _. split; [reflexivity|]. cbn [m_head next_at].
    constructor; [done|]. rewrite lookup_total_insert_eq.
    by apply is_free_list_insert.
  - intros size_needed this mem p l Hl r. subst r.
    apply is_free_list_cons_inv in Hl as (Hhead & Hnull & Hl).
    rewrite allocate_hit by congruence. cbn [fst snd m_head next_at sys count].
    rewrite Hhead. done.
  - intros size_needed this mem Hl r. subst r.
    apply is_free_list_nil_inv in Hl.
    rewrite allocate_miss by done. cbn [fst snd m_head next_at sys count].
    split_and!; [done|constructor|done].
Qed.

Lemma free_list_is_a_stack_witness :
  ∃ this' mem',
    deallocate 2 64 8192 64 {| m_head := 4096; m_list_count := 1 |}
      {| next_at := {[ 4096 := 0 ]}; sys := sys (Memory_start 16384);
         counters := counters (Memory_start 16384) |} = Some (true, this', mem') ∧
    is_free_list (next_at mem') (m_head this') [8192; 4096].
Proof.
  refine (proj1 (free_list_is_a_stack 2 64) 8192
            {| m_head := 4096; m_list_count := 1 |}
            {| next_at := {[ 4096 := 0 ]}; sys := sys (Memory_start 16384);
               counters := counters (Memory_start 16384) |} [4096] _ _ _ _).
  - constructor; [discriminate|]. cbn [next_at].
    rewrite lookup_total_singleton. constructor.
  - discriminate.
  - intros Hin. apply list_elem_of_singleton in Hin. discriminate Hin.
  - discriminate.
Defined.

(** One call that returns moves the counter by at most one and keeps it at
    or below [MaxListCount]. *)
Lemma call_counter_step MaxListCount Size c st st' :
  MaxListCount < 2 ^ 63 →
  - 2 ^ 63 < m_list_count st.1 ≤ MaxListCount →
  call MaxListCount Size c st = Some st' →
  m_list_count st.1 - 1 ≤ m_list_count st'.1 ≤ MaxListCount.
Proof.
  intros HMax Hcount. destruct st as [this mem]. simpl in Hcount.
  destruct c as [size_needed|ptr size_alloced].
  - rewrite call_allocate. intros [= <-]. cbn [fst]. unfold allocate.
    destruct (decide (m_head this = nullptr)); cbn [fst snd m_list_count];
      try destruct (malloc size_needed (sys mem)); cbn [fst snd m_list_count];
      rewrite wrap_int64_small by lia; lia.
  - unfold call, deallocate; cbn [fst snd].
    destruct (decide (size_alloced ≠ Size ∨ m_list_count this = MaxListCount))
      as [Hout|Hin].
    + intros [= <-]. cbn [fst m_list_count]. lia.
    + destruct (decide (ptr = nullptr)); [discriminate|].
      intros [= <-]. cbn [fst m_list_count].
      rewrite wrap_int64_small by lia.
      assert (m_list_count this ≠ MaxListCount) by (intros ?; apply Hin; by right).
      lia.
Qed.

(** X9. As long as the counter cannot wrap (it starts at or below
    [MaxListCount] and more than the number of calls above the least
    [int64_t]), no sequence of calls takes it above [MaxListCount], and it
    falls by at most one per call.  The sequence runs to its end when it
    gives [deallocate] no null pointer. *)
Theorem list_count_never_exceeds_max MaxListCount Size cs this mem :
  MaxListCount < 2 ^ 63 →
  m_list_count this ≤ MaxListCount →
  - 2 ^ 63 + Z.of_nat (length cs) ≤ m_list_count this →
  (no_null_block cs → is_Some (calls MaxListCount Size cs (this, mem))) ∧
  ∀ st, calls MaxListCount Size cs (this, mem) = Some st →
    m_list_count this - Z.of_nat (length cs) ≤ m_list_count st.1 ≤ MaxListCount.
Proof.
  intros HMax Hhi Hlo. split; [intros Hcs; by apply calls_return|].
  revert this mem Hhi Hlo.
  induction cs as [|c cs IH]; intros this mem Hhi Hlo st Hst.
  - simpl in Hst. injection Hst as <-. simpl. lia.
  - rewrite calls_cons in Hst. cbn [length] in *.
    destruct (call MaxListCount Size c (this, mem)) as [[this1 mem1]|] eqn:Hcall;
      [|discriminate].
    pose proof (call_counter_step MaxListCount Size c (this, mem) (this1, mem1)
                  HMax ltac:(simpl; lia) Hcall) as Hstep.
    cbn [fst] in Hstep.
    specialize (IH this1 mem1 ltac:(lia) ltac:(lia) st Hst). lia.
Qed.

Lemma list_count_never_exceeds_max_witness :
  ∃ st,
    calls 2 64
      [CallDeallocate 4096 64; CallDeallocate 4160 64; CallDeallocate 4224 64;
       CallAllocate 64]
      (FreeListAllocatorImpl_new, Memory_start 8192) = Some st ∧
    m_list_count st.1 ≤ 2.
Proof.
  eexists. split; [vm_compute; reflexivity|].
  refine (proj2 (proj2 (list_count_never_exceeds_max 2 64
    [CallDeallocate 4096 64; CallDeallocate 4160 64; CallDeallocate 4224 64;
     CallAllocate 64] FreeListAllocatorImpl_new (Memory_start 8192) _ _ _) _ _)).
  - reflexivity.
  - discriminate.
  - discriminate.
  - vm_compute. reflexivity.
Defined.

(** One call in a well-used sequence: it returns, the list is the one
    [cached_after] names, and the blocks on it stay as many as the counter
    plus the allocations served by the system, up to the difference there
    was. *)
Lemma call_keeps_accounting MaxListCount Size c this mem l :
  - 2 ^ 63 < m_list_count this ≤ MaxListCount → MaxListCount < 2 ^ 63 →
  is_free_list (next_at mem) (m_head this) l →
  match c with
  | CallAllocate _ => True
  | CallDeallocate ptr _ => ptr ≠ nullptr ∧ ptr ∉ l
  end →
  ∃ st',
    call MaxListCount Size c (this, mem) = Some st' ∧
    let l' := cached_after MaxListCount Size c (m_list_count this) l in
    is_free_list (next_at st'.2) (m_head st'.1) l' ∧
    Z.of_nat (length l') - m_list_count st'.1 - freelist_alloc_miss (counters st'.2)
    = Z.of_nat (length l) - m_list_count this - freelist_alloc_miss (counters mem).
Proof.
  intros Hcount HMax Hl Hvalid.
  destruct c as [size_needed|ptr size_alloced]; unfold cached_after.
  - rewrite call_allocate. eexists. split; [reflexivity|]. cbn zeta.
    destruct l as [|p l].
    + apply is_free_list_nil_inv in Hl as Hhead.
      rewrite allocate_miss by done.
      cbn [fst snd m_head m_list_count next_at counters count
           add_alloc_size add_alloc_miss freelist_alloc_miss tail length].
      rewrite wrap_int64_small by lia. split; [constructor|lia].
    + apply is_free_list_cons_inv in Hl as (Hhead & Hnull & Hl).
      rewrite allocate_hit by congruence.
      cbn [fst snd m_head m_list_count next_at counters count
           add_alloc_size add_cache_size add_alloc_hit freelist_alloc_miss tail length].
      rewrite wrap_int64_small by lia. rewrite Hhead. split; [done|lia].
  - unfold call, deallocate; cbn [fst snd].
    destruct (decide (size_alloced ≠ Size ∨ m_list_count this = MaxListCount))
      as [Hout|Hin].
    + eexists. split; [reflexivity|]. cbn zeta.
      destruct (decide (size_alloced ≠ Size));
        cbn [fst snd m_head m_list_count next_at counters count sys
             add_dealloc add_dealloc_passthru add_alloc_size freelist_alloc_miss];
        (split; [done|lia]).
    + destruct Hvalid as [Hnull Hfresh].
      rewrite decide_False by done.
      eexists. split; [reflexivity|]. cbn zeta.
      cbn [fst snd m_head m_list_count next_at counters].
      assert (m_list_count this ≠ MaxListCount) by (intros ?; apply Hin; by right).
      rewrite wrap_int64_small by lia. split.
      * constructor; [done|]. rewrite lookup_total_insert_eq.
        by apply is_free_list_insert.
      * cbn [count add_cache_size add_alloc_size freelist_alloc_miss counters length].
        lia.
Qed.

(** X10. A sequence of calls that gives [deallocate] no null pointer and no
    block already on the list, and that is too short for the counter to
    wrap, runs to its end; the free list stays a list without a loop,
    holding the blocks [cached_after_all] names; and the number of blocks on
    it, less the counter, less the allocations served by the system, stays
    what it was.  On a new allocator with fresh metrics the list so holds as
    many blocks as the counter says plus one for every allocation the system
    served. *)
Theorem cached_blocks_accounting MaxListCount Size cs this mem l :
  MaxListCount < 2 ^ 63 →
  m_list_count this ≤ MaxListCount →
  - 2 ^ 63 + Z.of_nat (length cs) < m_list_count this →
  is_free_list (next_at mem) (m_head this) l →
  well_used MaxListCount Size cs (this, mem) l →
  ∃ st,
    calls MaxListCount Size cs (this, mem) = Some st ∧
    let l' := cached_after_all MaxListCount Size cs (this, mem) l in
    is_free_list (next_at st.2) (m_head st.1) l' ∧
    Z.of_nat (length l') - m_list_count st.1 - freelist_alloc_miss (counters st.2)
    = Z.of_nat (length l) - m_list_count this - freelist_alloc_miss (counters mem).
Proof.
  intros HMax. revert this mem l.
  induction cs as [|c cs IH]; intros this mem l Hhi Hlo Hl Hused.
  - exists (this, mem). simpl. done.
  - rewrite calls_cons. cbn [cached_after_all fst]. cbn [length] in Hlo.
    destruct Hused as [Hvalid Hused]. cbn [fst] in Hused.
    destruct (call_keeps_accounting MaxListCount Size c this mem l
                ltac:(lia) HMax Hl Hvalid) as ([this1 mem1] & Hcall & Hl1 & Hacc1).
    pose proof (call_counter_step MaxListCount Size c (this, mem) (this1, mem1)
                  HMax ltac:(simpl; lia) Hcall) as Hstep.
    rewrite Hcall in *. cbn [fst snd] in *.
    destruct (IH this1 mem1
                (cached_after MaxListCount Size c (m_list_count this) l))
      as (st & Hst & Hl2 & Hacc2); [lia|lia|done|done|].
    exists st. split; [done|]. cbn zeta. split; [done|]. lia.
Qed.

Lemma cached_blocks_accounting_witness :
  ∃ st,
    calls 1 64
      [CallAllocate 64; CallAllocate 64; CallDeallocate 4096 64; CallDeallocate 4160 64]
      (FreeListAllocatorImpl_new, Memory_start 4096) = Some st ∧
    Z.of_nat (length (cached_after_all 1 64
      [CallAllocate 64; CallAllocate 64; CallDeallocate 4096 64; CallDeallocate 4160 64]
      (FreeListAllocatorImpl_new, Memory_start 4096) []))
    - m_list_count st.1 - freelist_alloc_miss (counters st.2) = 0.
Proof.
  destruct (cached_blocks_accounting 1 64
    [CallAllocate 64; CallAllocate 64; CallDeallocate 4096 64; CallDeallocate 4160 64]
    FreeListAllocatorImpl_new (Memory_start 4096) [])
    as (st & Hst & _ & Hacc).
  - reflexivity.
  - discriminate.
  - reflexivity.
  - constructor.
  - vm_compute. split_and!; try done.
    + intros Hin. by apply elem_of_nil in Hin.
    + intros Hin. apply list_elem_of_singleton in Hin. discriminate Hin.
  - exists st. split; [exact Hst|exact Hacc].
Defined.

Lemma call_metrics MaxListCount Size c st st' :
  call MaxListCount Size c st = Some st' →
  freelist_alloc_hit (counters st'.2) + freelist_alloc_miss (counters st'.2)
  = freelist_alloc_hit (counters st.2) + freelist_alloc_miss (counters st.2)
    + count_allocate [c] ∧
  freelist_alloc_size (counters st'.2)
  = freelist_alloc_size (counters st.2) + bytes_outstanding [c] ∧
  freelist_dealloc_passthru (counters st'.2)
  = freelist_dealloc_passthru (counters st.2) + count_other_size Size [c] ∧
  freelist_dealloc_passthru (counters st'.2) - freelist_dealloc_passthru (counters st.2)
  ≤ freelist_dealloc (counters st'.2) - freelist_dealloc (counters st.2)
  ≤ count_deallocate [c].
Proof.
  destruct st as [this mem].
  destruct c as [size_needed|ptr size_alloced].
  - rewrite call_allocate. intros [= <-]. cbn [fst snd]. unfold allocate.
    destruct (decide (m_head this = nullptr)); cbn; lia.
  - unfold call, deallocate; cbn [fst snd count_other_size].
    destruct (decide (size_alloced ≠ Size ∨ m_list_count this = MaxListCount));
      destruct (decide (size_alloced ≠ Size));
      try destruct (decide (ptr = nullptr)); try discriminate;
      intros [= <-]; cbn; lia.
Qed.

(** X11. Over any sequence of calls that runs to its end the metrics add
    up: hits plus misses grow by the number of [allocate] calls;
    [freelist_alloc_size] grows by the bytes asked for less the bytes given
    back; [freelist_dealloc_passthru] grows by the number of [deallocate]
    calls with a size other than [Size]; and [freelist_dealloc] grows by at
    least that much and at most by the number of [deallocate] calls.  The
    sequence runs to its end when it gives [deallocate] no null pointer. *)
Theorem metrics_add_up MaxListCount Size cs st :
  (no_null_block cs → is_Some (calls MaxListCount Size cs st)) ∧
  ∀ st', calls MaxListCount Size cs st = Some st' →
    freelist_alloc_hit (counters st'.2) + freelist_alloc_miss (counters st'.2)
    = freelist_alloc_hit (counters st.2) + freelist_alloc_miss (counters st.2)
      + count_allocate cs ∧
    freelist_alloc_size (counters st'.2)
    = freelist_alloc_size (counters st.2) + bytes_outstanding cs ∧
    freelist_dealloc_passthru (counters st'.2)
    = freelist_dealloc_passthru (counters st.2) + count_other_size Size cs ∧
    freelist_dealloc_passthru (counters st'.2) - freelist_dealloc_passthru (counters st.2)
    ≤ freelist_dealloc (counters st'.2) - freelist_dealloc (counters st.2)
    ≤ count_deallocate cs.
Proof.
  split; [intros Hcs; by apply calls_return|].
  revert st. induction cs as [|c cs IH]; intros st st' Hst.
  - simpl in Hst. injection Hst as <-. simpl. lia.
  - rewrite calls_cons in Hst.
    destruct (call MaxListCount Size c st) as [st1|] eqn:Hcall; [|discriminate].
    pose proof (call_metrics MaxListCount Size c st st1 Hcall) as Hc.
    specialize (IH st1 st' Hst).
    destruct c; cbn [count_allocate count_deallocate count_other_size
                     bytes_outstanding] in *; lia.
Qed.

Lemma metrics_add_up_witness :
  ∃ st',
    calls 1 64
      [CallAllocate 64; CallDeallocate 4096 64; CallDeallocate 5000 32;
       CallAllocate 48]
      (FreeListAllocatorImpl_new, Memory_start 4096) = Some st' ∧
    freelist_alloc_hit (counters st'.2) + freelist_alloc_miss (counters st'.2)
    = 0 + 0 + 2.
Proof.
  eexists. split; [vm_compute; reflexivity|].
  refine (proj1 (proj2 (metrics_add_up 1 64
    [CallAllocate 64; CallDeallocate 4096 64; CallDeallocate 5000 32;
     CallAllocate 48]
    (FreeListAllocatorImpl_new, Memory_start 4096)) _ _)).
  vm_compute. reflexivity.
Defined.

Lemma call_balance MaxListCount Size c st st' :
  MaxListCount < 2 ^ 63 →
  - 2 ^ 63 < m_list_count st.1 ≤ MaxListCount →
  call MaxListCount Size c st = Some st' →
  m_list_count st'.1 + freelist_dealloc (counters st'.2)
  = m_list_count st.1 + freelist_dealloc (counters st.2)
    + count_deallocate [c] - count_allocate [c].
Proof.
  intros HMax Hcount. destruct st as [this mem]. cbn [fst snd] in *.
  destruct c as [size_needed|ptr size_alloced].
  - rewrite call_allocate. intros [= <-]. cbn [fst snd]. unfold allocate.
    destruct (decide (m_head this = nullptr)); cbn [fst snd m_list_count];
      rewrite wrap_int64_small by lia; cbn; lia.
  - unfold call, deallocate; cbn [fst snd].
    destruct (decide (size_alloced ≠ Size ∨ m_list_count this = MaxListCount))
      as [Hout|Hin].
    + intros [= <-]. cbn [fst snd m_list_count].
      destruct (decide (size_alloced ≠ Size)); cbn; lia.
    + destruct (decide (ptr = nullptr)); [discriminate|].
      intros [= <-]. cbn [fst snd m_list_count].
      assert (m_list_count this ≠ MaxListCount) by (intros ?; apply Hin; by right).
      rewrite wrap_int64_small by lia. cbn. lia.
Qed.

(** X12. While the counter cannot wrap, every [deallocate] call that
    returns either raises the list counter or is counted in
    [freelist_dealloc], and every [allocate] call lowers the counter: over a
    sequence of calls the counter plus [freelist_dealloc] grows by the
    number of [deallocate] calls less the number of [allocate] calls.  The
    sequence runs to its end when it gives [deallocate] no null pointer. *)
Theorem counter_and_releases_balance MaxListCount Size cs this mem :
  MaxListCount < 2 ^ 63 →
  m_list_count this ≤ MaxListCount →
  - 2 ^ 63 + Z.of_nat (length cs) < m_list_count this →
  (no_null_block cs → is_Some (calls MaxListCount Size cs (this, mem))) ∧
  ∀ st, calls MaxListCount Size cs (this, mem) = Some st →
    m_list_count st.1 + freelist_dealloc (counters st.2)
    = m_list_count this + freelist_dealloc (counters mem)
      + count_deallocate cs - count_allocate cs.
Proof.
  intros HMax Hhi Hlo. split; [intros Hcs; by apply calls_return|].
  revert this mem Hhi Hlo.
  induction cs as [|c cs IH]; intros this mem Hhi Hlo st Hst.
  - simpl in Hst. injection Hst as <-. simpl. lia.
  - rewrite calls_cons in Hst. cbn [length] in Hlo.
    destruct (call MaxListCount Size c (this, mem)) as [[this1 mem1]|] eqn:Hcall;
      [|discriminate].
    pose proof (call_balance MaxListCount Size c (this, mem) (this1, mem1) HMax
                  ltac:(simpl; lia) Hcall) as Hbal.
    pose proof (call_counter_step MaxListCount Size c (this, mem) (this1, mem1) HMax
                  ltac:(simpl; lia) Hcall) as Hstep.
    cbn [fst snd] in Hbal, Hstep.
    specialize (IH this1 mem1 ltac:(lia) ltac:(lia) st Hst).
    destruct c; cbn [count_allocate count_deallocate] in *; lia.
Qed.

Lemma counter_and_releases_balance_witness :
  ∃ st,
    calls 1 64
      [CallAllocate 64; CallDeallocate 4096 64; CallDeallocate 5000 32;
       CallDeallocate 6000 64]
      (FreeListAllocatorImpl_new, Memory_start 4096) = Some st ∧
    m_list_count st.1 + freelist_dealloc (counters st.2) = 0 + 0 + 3 - 1.
Proof.
  eexists. split; [vm_compute; reflexivity|].
  refine (proj2 (counter_and_releases_balance 1 64
    [CallAllocate 64; CallDeallocate 4096 64; CallDeallocate 5000 32;
     CallDeallocate 6000 64]
    FreeListAllocatorImpl_new (Memory_start 4096) _ _ _) _ _).
  - reflexivity.
  - discriminate.
  - reflexivity.
  - vm_compute. reflexivity.
Defined.

Lemma destroy_loop_releases next hdr l :
  is_free_list next hdr l →
  ∀ fuel h, (length l ≤ fuel)%nat →
    ∃ h', destroy_loop fuel next hdr h = Some h' ∧
          sys_live h' = sys_live h ∖ list_to_set l ∧ sys_brk h' = sys_brk h.
Proof.
  intros Hl. induction Hl as [|hdr l Hnull Hl IH]; intros fuel h Hfuel.
  - exists h. destruct fuel; simpl; (split_and!; [done| |done]);
      rewrite difference_empty_L; done.
  - destruct fuel as [|fuel]; [simpl in Hfuel; lia|].
    simpl in Hfuel. simpl. rewrite decide_False by done.
    destruct (IH fuel (free hdr h)) as (h' & Hrun & Hlive & Hbrk); [lia|].
    exists h'. split_and!; [done| |done].
    rewrite Hlive. unfold free; cbn [sys_live].
    apply difference_difference_l_L.
Qed.

(** X13. The destructor, run on a free list without a loop and given at
    least as many iterations as the list has blocks, comes to an end having
    released every block of the list to the system and nothing else; it
    writes no [next] field and touches no counter. *)
Theorem destructor_releases_every_block fuel this mem l :
  is_free_list (next_at mem) (m_head this) l →
  (length l ≤ fuel)%nat →
  ∃ mem',
    FreeListAllocatorImpl_destroy fuel this mem = Some mem' ∧
    sys_live (sys mem') = sys_live (sys mem) ∖ list_to_set l ∧
    sys_brk (sys mem') = sys_brk (sys mem) ∧
    next_at mem' = next_at mem ∧ counters mem' = counters mem.
Proof.
  intros Hl Hfuel. unfold FreeListAllocatorImpl_destroy.
  destruct (destroy_loop_releases _ _ _ Hl fuel (sys mem) Hfuel)
    as (h' & -> & Hlive & Hbrk).
  eexists. split; [reflexivity|]. done.
Qed.

Lemma destructor_releases_every_block_witness :
  ∃ mem',
    FreeListAllocatorImpl_destroy 2 {| m_head := 8192; m_list_count := 2 |}
      {| next_at := {[ 8192 := 4096; 4096 := 0 ]};
         sys := {| sys_live := {[ 4096; 8192; 12288 ]}; sys_brk := 16384 |};
         counters := counters (Memory_start 16384) |} = Some mem' ∧
    sys_live (sys mem') = {[ 4096; 8192; 12288 ]} ∖ list_to_set [8192; 4096].
Proof.
  destruct (destructor_releases_every_block 2 {| m_head := 8192; m_list_count := 2 |}
      {| next_at := {[ 8192 := 4096; 4096 := 0 ]};
         sys := {| sys_live := {[ 4096; 8192; 12288 ]}; sys_brk := 16384 |};
         counters := counters (Memory_start 16384) |} [8192; 4096])
    as (mem' & Hrun & Hlive & _).
  - constructor; [discriminate|]. cbn [next_at].
    replace (({[ 8192 := 4096; 4096 := 0 ]} : gmap Z Z) !!! 8192) with 4096
      by (vm_compute; reflexivity).
    constructor; [discriminate|].
    replace (({[ 8192 := 4096; 4096 := 0 ]} : gmap Z Z) !!! 4096) with 0
      by (vm_compute; reflexivity).
    constructor.
  - simpl. lia.
  - exists mem'. split; [exact Hrun|exact Hlive].
Defined.

(** A block whose [next] field leads back to itself heads no list. *)
Lemma self_loop_is_no_list next p l :
  p ≠ nullptr → next !!! p = p → ¬ is_free_list next p l.
Proof.
  intros Hnull Hself. induction l as [|q l IH]; intros Hl.
  - apply is_free_list_nil_inv in Hl. done.
  - apply is_free_list_cons_inv in Hl as (<- & _ & Hl).
    rewrite Hself in Hl. by apply IH.
Qed.

Lemma allocations_on_self_loop MaxListCount Size size_needed (n : nat) p :
  p ≠ nullptr →
  ∀ this mem,
    m_head this = p → next_at mem !!! p = p →
    ∃ st,
      calls MaxListCount Size (replicate n (CallAllocate size_needed)) (this, mem)
      = Some st ∧
      m_head st.1 = p ∧ next_at st.2 = next_at mem ∧ sys st.2 = sys mem.
Proof.
  intros Hnull. induction n as [|n IH]; intros this mem Hhead Hself.
  - exists (this, mem). done.
  - change (replicate (S n) (CallAllocate size_needed))
      with (CallAllocate size_needed :: replicate n (CallAllocate size_needed)).
    rewrite calls_cons, call_allocate.
    rewrite allocate_hit by congruence. cbn [fst snd]. rewrite Hhead, Hself.
    match goal with |- context [calls _ _ _ (?t, ?m)] =>
      destruct (IH t m) as (st & Hst & H1 & H2 & H3); [done|done|]
    end.
    exists st. split_and!; [exact Hst|exact H1|exact H2|exact H3].
Qed.

(** X15. [deallocate] does not notice a block that is given back twice.
    When both calls cache the block, its [next] field leads back to itself:
    the free list has become a loop, no list of blocks describes it, and
    every later [allocate] returns that same block without going to the
    system, however many are made. *)
Theorem double_deallocate_makes_a_loop MaxListCount Size ptr this mem :
  ptr ≠ nullptr →
  m_list_count this ≠ MaxListCount →
  wrap_int64 (m_list_count this + 1) ≠ MaxListCount →
  ∃ st,
    calls MaxListCount Size
      [CallDeallocate ptr Size; CallDeallocate ptr Size] (this, mem) = Some st ∧
    m_head st.1 = ptr ∧
    next_at st.2 !!! ptr = ptr ∧
    (∀ l, ¬ is_free_list (next_at st.2) (m_head st.1) l) ∧
    ∀ size_needed (n : nat),
      ∃ st',
        calls MaxListCount Size (replicate n (CallAllocate size_needed)) st = Some st' ∧
        (allocate size_needed st'.1 st'.2).1.1 = ptr ∧ sys st'.2 = sys mem.
Proof.
  intros Hnull Hc1 Hc2.
  assert (∃ st,
    calls MaxListCount Size
      [CallDeallocate ptr Size; CallDeallocate ptr Size] (this, mem) = Some st ∧
    m_head st.1 = ptr ∧ next_at st.2 !!! ptr = ptr ∧ sys st.2 = sys mem)
    as (st & Hst & Hhead & Hself & Hsys).
  { rewrite calls_cons.
    rewrite (call_deallocate _ _ _ _ _ _ _
               (deallocate_cached MaxListCount Size ptr this mem Hnull Hc1)).
    cbn [fst snd]. rewrite calls_cons.
    rewrite (call_deallocate _ _ _ _ _ _ _
               (deallocate_cached MaxListCount Size ptr
                  {| m_head := ptr;
                     m_list_count := wrap_int64 (m_list_count this + 1) |}
                  _ Hnull Hc2)).
    cbn [fst snd calls m_head next_at sys].
    eexists. split; [reflexivity|]. cbn [fst snd m_head next_at sys].
    split_and!; [done| |done]. by rewrite lookup_total_insert_eq. }
  exists st. split_and!; [done|done|done| |].
  - intros l. rewrite Hhead. by apply self_loop_is_no_list.
  - intros size_needed n.
    destruct st as [this2 mem2]. cbn [fst snd] in *.
    destruct (allocations_on_self_loop MaxListCount Size size_needed n ptr Hnull
                this2 mem2 Hhead Hself) as (st' & Hst' & H1 & H2 & H3).
    exists st'. split; [exact Hst'|].
    rewrite allocate_hit by congruence. cbn [fst]. rewrite H3. done.
Qed.

Lemma double_deallocate_makes_a_loop_witness :
  ∃ st st',
    calls 4 64 [CallDeallocate 4096 64; CallDeallocate 4096 64]
      (FreeListAllocatorImpl_new, Memory_start 8192) = Some st ∧
    calls 4 64 (replicate 3 (CallAllocate 64)) st = Some st' ∧
    (allocate 64 st'.1 st'.2).1.1 = 4096.
Proof.
  destruct (double_deallocate_makes_a_loop 4 64 4096
              FreeListAllocatorImpl_new (Memory_start 8192))
    as (st & Hst & _ & _ & _ & Hlater).
  - discriminate.
  - discriminate.
  - vm_compute. discriminate.
  - destruct (Hlater 64 3%nat) as (st' & Hst' & Hp & _).
    exists st, st'. split_and!; [exact Hst|exact Hst'|exact Hp].
Defined.

(** X14. The lists of two threads are separate.  A call on one thread
    leaves the object of any other thread as it is; and a block one thread
    has cached is not what another thread gets: with no block on its own
    list, the other thread's [allocate] is served by the system and counted
    as a miss, and the first thread still has the block at its head. *)
Theorem thread_lists_are_separate MaxListCount Size (A B : nat) :
  A ≠ B →
  (∀ size_needed a mem,
     m_impl (FreeListAllocator_allocate A size_needed a mem).1.2 !! B = m_impl a !! B) ∧
  (∀ ptr size_alloced a mem r,
     FreeListAllocator_deallocate MaxListCount Size A ptr size_alloced a mem = Some r →
     m_impl r.1.2 !! B = m_impl a !! B) ∧
  (∀ ptr size_needed a mem,
     ptr ≠ nullptr →
     m_list_count (impl_or_new A a) ≠ MaxListCount →
     m_head (impl_or_new B a) = nullptr →
     ∃ r1,
       FreeListAllocator_deallocate MaxListCount Size A ptr Size a mem = Some r1 ∧
       r1.1.1 = true ∧
       let r2 := FreeListAllocator_allocate B size_needed r1.1.2 r1.2 in
       r2.1.1 = (malloc size_needed (sys mem)).1 ∧
       freelist_alloc_miss (counters r2.2) = freelist_alloc_miss (counters mem) + 1 ∧
       freelist_alloc_hit (counters r2.2) = freelist_alloc_hit (counters mem) ∧
       m_head (impl_or_new A r2.1.2) = ptr).
Proof.
  intros Hne. split_and!.
  - intros size_needed a mem. unfold FreeListAllocator_allocate.
    destruct (allocate size_needed (impl_or_new A a) mem) as [[p impl'] mem'].
    cbn [fst snd m_impl]. by rewrite lookup_insert_ne.
  - intros ptr size_alloced a mem r. unfold FreeListAllocator_deallocate.
    destruct (deallocate MaxListCount Size ptr size_alloced (impl_or_new A a) mem)
      as [[[b impl'] mem']|]; [|discriminate].
    intros [= <-]. cbn [fst snd m_impl]. by rewrite lookup_insert_ne.
  - intros ptr size_needed a mem Hnull Hcount HB.
    unfold FreeListAllocator_deallocate.
    rewrite deallocate_cached by done.
    eexists. split; [reflexivity|]. cbn [fst snd]. split; [done|].
    cbn zeta. unfold FreeListAllocator_allocate.
    assert (impl_or_new B
              {| m_impl := <[A := {| m_head := ptr;
                                     m_list_count :=
                                       wrap_int64 (m_list_count (impl_or_new A a) + 1) |}]>
                             (m_impl a) |} = impl_or_new B a) as ->.
    { unfold impl_or_new; cbn [m_impl]. by rewrite lookup_insert_ne. }
    rewrite allocate_miss by done. cbn [fst snd m_impl].
    split_and!; try done.
    unfold impl_or_new; cbn [m_impl].
    rewrite lookup_insert_ne by done. by rewrite lookup_insert_eq.
Qed.

Lemma thread_lists_are_separate_witness :
  ∃ r1,
    FreeListAllocator_deallocate 4 64 1 4096 64 {| m_impl := ∅ |}
      (Memory_start 8192) = Some r1 ∧
    (FreeListAllocator_allocate 2 64 r1.1.2 r1.2).1.1 = 8192.
Proof.
  destruct (proj2 (proj2 (thread_lists_are_separate 4 64 1%nat 2%nat ltac:(discriminate)))
              4096 64 {| m_impl := ∅ |} (Memory_start 8192))
    as (r1 & Hr1 & _ & Hp & _).
  - discriminate.
  - discriminate.
  - reflexivity.
  - exists r1. split; [exact Hr1|exact Hp].
Defined.

End FreeListExtra.
